(** * TextAnnotation: the pure core of [main.py]

    A shallow embedding of the paginator, the span renderer, the
    add-annotation step and the JSON export of the annotation prototype,
    together with the Python primitives they are built from (string
    slicing, [range], the stable [sorted], [json.dumps]). *)

From Stdlib Require Import List ZArith NArith Lia Bool String Ascii.
From Stdlib Require Import Permutation Sorted.
From Stdlib Require Decimal DecimalFacts DecimalPos DecimalN DecimalZ.
Import ListNotations.

Local Open Scope Z_scope.

(** ** Python primitives *)

Module Py.

(** A Python [str] is a sequence of code points. *)
Abbreviation codepoint := N (only parsing).
Abbreviation pystr := (list N) (only parsing).

(** Literals of the source are written as Rocq strings. *)
Definition str_of (s : string) : pystr := map N_of_ascii (list_ascii_of_string s).

Definition len {A} (s : list A) : Z := Z.of_nat (List.length s).

(** Exceptions the embedded code can raise. *)
Inductive exn : Type :=
| ValueError (msg : string).

Inductive result (A : Type) : Type :=
| Ok (a : A)
| Raise (e : exn).
Arguments Ok {A} a.
Arguments Raise {A} e.

(** Index adjustment of a slice bound for step 1 (what
    [PySlice_AdjustIndices] does): a negative bound counts from the end,
    and the result is clipped to [0, n]. *)
Definition adjust_index (n i : Z) : Z :=
  if i <? 0 then (if i + n <? 0 then 0 else i + n)
  else if n <? i then n else i.

(** [s[start:stop]] *)
Definition slice {A} (s : list A) (start stop : Z) : list A :=
  let n := len s in
  let a := adjust_index n start in
  let b := adjust_index n stop in
  firstn (Z.to_nat (b - a)) (skipn (Z.to_nat a) s).

(** [s[start:]] *)
Definition slice_from {A} (s : list A) (start : Z) : list A :=
  skipn (Z.to_nat (adjust_index (len s) start)) s.

(** Number of elements of [range(lo, hi, step)] for [step <> 0]. *)
Definition range_length (lo hi step : Z) : nat :=
  if 0 <? step then
    (if lo <? hi then Z.to_nat ((hi - lo - 1) / step + 1) else 0%nat)
  else
    (if hi <? lo then Z.to_nat ((lo - hi - 1) / (- step) + 1) else 0%nat).

(** [range(start, stop, step)], as the list it iterates over. *)
Definition range (start stop step : Z) : result (list Z) :=
  if step =? 0 then Raise (ValueError "range() arg 3 must not be zero")
  else Ok (map (fun k => start + Z.of_nat k * step)
               (seq 0 (range_length start stop step))).

(** [sorted(l, key=key)] for integer keys.  Python's sort is stable, and
    the result of a stable sort is determined by the input: elements in
    ascending key order, equal keys in their original order.  Insertion
    from the right computes it. *)
Section Sorted.
Context {A : Type} (key : A -> Z).

Fixpoint insert (a : A) (l : list A) : list A :=
  match l with
  | [] => [a]
  | b :: l' => if key a <=? key b then a :: l else b :: insert a l'
  end.

Definition sorted (l : list A) : list A := fold_right insert [] l.

Definition key_le (a b : A) : Prop := key a <= key b.
End Sorted.

End Py.

Import Py.

(** ** Data model *)

(** An annotation dictionary, as built by the add-annotation step:
    keys [start_pos], [end_pos], [label], [text_fragment] in that order. *)
Record annotation : Type := mkAnnotation {
  start_pos : Z;
  end_pos : Z;
  label : pystr;
  text_fragment : pystr
}.

(** An element of the list handed to [annotated_text]: a bare string, or
    a tuple [(text, label, color)]. *)
Inductive fragment : Type :=
| Plain (s : pystr)
| Highlight (s : pystr) (lbl : pystr) (color : pystr).

Definition fragment_text (f : fragment) : pystr :=
  match f with
  | Plain s => s
  | Highlight s _ _ => s
  end.

(** ** [get_annotated_text] *)

Definition highlight_color : pystr := str_of "#8ef".

(** One iteration of the loop: the state is the output list and
    [last_end]. *)
Definition sweep_step (text : pystr) (st : list fragment * Z) (a : annotation)
  : list fragment * Z :=
  let '(annotated_text_list, last_end) := st in
  let annotated_text_list :=
    if last_end <? start_pos a
    then annotated_text_list ++ [Plain (slice text last_end (start_pos a))]
    else annotated_text_list in
  (annotated_text_list
     ++ [Highlight (slice text (start_pos a) (end_pos a)) (label a) highlight_color],
   end_pos a).

Definition get_annotated_text (text : pystr) (annotations : list annotation)
  : list fragment :=
  let '(annotated_text_list, last_end) :=
    fold_left (sweep_step text) (sorted start_pos annotations) ([], 0) in
  if last_end <? len text
  then annotated_text_list ++ [Plain (slice_from text last_end)]
  else annotated_text_list.

(** The text shown by a list of fragments, read left to right. *)
Definition fragments_text (l : list fragment) : pystr :=
  List.concat (map fragment_text l).

(** A span lies inside the text and is not empty. *)
Definition span_in_text (text : pystr) (a : annotation) : Prop :=
  0 <= start_pos a /\ start_pos a < end_pos a /\ end_pos a <= len text.

(** Two half-open spans share no position. *)
Definition spans_disjoint (a b : annotation) : Prop :=
  end_pos a <= start_pos b \/ end_pos b <= start_pos a.

(** Spans that follow one another from a cursor on, none reaching back
    before the end of the one before it. *)
Inductive chained (text : pystr) : Z -> list annotation -> Prop :=
| chained_nil c : c <= len text -> chained text c []
| chained_cons c a l :
    c <= start_pos a -> span_in_text text a ->
    chained text (end_pos a) l -> chained text c (a :: l).

(** ** [paginate_text] *)

Definition paginate_text (text : pystr) (indices_per_page : Z)
  : result (list pystr) :=
  match range 0 (len text) indices_per_page with
  | Raise e => Raise e
  | Ok starts => Ok (map (fun i => slice text i (i + indices_per_page)) starts)
  end.

(** [ceil(n / d)] for a positive [d]. *)
Definition ceil_div (n d : Z) : Z := (n + d - 1) / d.

(** ** The add-annotation step of [main] *)

(** What the step shows to the user. *)
Inductive notice : Type :=
| success (msg : string)
| error (msg : string).

(** The body of [if st.button("Add Annotation"):], with the annotation
    list of the session state passed in and out. *)
Definition add_annotation (text : pystr) (annotations : list annotation)
    (start_pos end_pos : Z) (label : pystr) : list annotation * notice :=
  if (0 <=? start_pos) && (start_pos <? end_pos) && (end_pos <=? len text)
  then (annotations ++ [mkAnnotation start_pos end_pos label
                          (slice text start_pos end_pos)],
        success "Annotation Added!")
  else (annotations, error "Invalid annotation positions.").

(** The annotation sets a session can hold: empty at first, extended only
    by accepted add-annotation steps. *)
Inductive AnnotationSet (text : pystr) : list annotation -> Prop :=
| AnnotationSet_empty : AnnotationSet text []
| AnnotationSet_add annotations start_pos end_pos label annotations' msg :
    AnnotationSet text annotations ->
    add_annotation text annotations start_pos end_pos label
      = (annotations', success msg) ->
    AnnotationSet text annotations'.

(** ** The [json] module

    [dumps] follows the pure-Python encoder ([_make_iterencode], the one
    [json.dumps] runs when [indent] is given) with the default
    [ensure_ascii=True]; [loads] follows the decoder's scanner.  Python
    values are those the encoder is given here and the decoder can give
    back from them: [None], booleans, integers, strings, lists, and
    dictionaries with string keys (in insertion order).  [loads] is
    [None] where [json.loads] raises, and also on floats, which are not
    modelled.  Integers are unbounded; the interpreter's limit on the
    number of digits of a converted integer is not modelled. *)

Module Json.

Local Set Warnings "-register-all".

Inductive value : Type :=
| VNone
| VBool (b : bool)
| VInt (z : Z)
| VStr (s : pystr)
| VList (l : list value)
| VDict (d : list (pystr * value)).

Local Open Scope N_scope.

Definition ch (a : ascii) : codepoint := N_of_ascii a.
Definition quote : codepoint := 34.
Definition backslash : codepoint := 92.

(** *** Encoding strings: [py_encode_basestring_ascii] *)

Definition hex_digit (d : N) : codepoint :=
  if d <? 10 then ch "0" + d else ch "a" + (d - 10).

(** ['{0:04x}'.format(n)] for [n < 0x10000]. *)
Definition hex4 (n : N) : pystr :=
  [hex_digit (n / 4096 mod 16); hex_digit (n / 256 mod 16);
   hex_digit (n / 16 mod 16); hex_digit (n mod 16)].

Definition u_escape (n : N) : pystr := backslash :: ch "u" :: hex4 n.

(** The replacement of one character matched by [ESCAPE_ASCII], that is
    of a quote, a backslash, or anything outside [' '..'~']. *)
Definition replace (c : codepoint) : pystr :=
  if c =? backslash then [backslash; backslash]
  else if c =? quote then [backslash; quote]
  else if c =? 8 then [backslash; ch "b"]
  else if c =? 12 then [backslash; ch "f"]
  else if c =? 10 then [backslash; ch "n"]
  else if c =? 13 then [backslash; ch "r"]
  else if c =? 9 then [backslash; ch "t"]
  else if c <? 65536 then u_escape c
  else
    let n := c - 65536 in
    let s1 := N.lor 55296 (N.land (N.shiftr n 10) 1023) in
    let s2 := N.lor 56320 (N.land n 1023) in
    u_escape s1 ++ u_escape s2.

Definition escape_char (c : codepoint) : pystr :=
  if (c =? backslash) || (c =? quote) || (c <? 32) || (126 <? c)
  then replace c else [c].

Definition escape (s : pystr) : pystr := flat_map escape_char s.

Definition encode_basestring_ascii (s : pystr) : pystr :=
  quote :: escape s ++ [quote].

(** *** Encoding integers: [int.__repr__] *)

Definition digit_char (d : N) : codepoint := ch "0" + d.

Fixpoint uint_chars (u : Decimal.uint) : pystr :=
  match u with
  | Decimal.Nil => []
  | Decimal.D0 u => digit_char 0 :: uint_chars u
  | Decimal.D1 u => digit_char 1 :: uint_chars u
  | Decimal.D2 u => digit_char 2 :: uint_chars u
  | Decimal.D3 u => digit_char 3 :: uint_chars u
  | Decimal.D4 u => digit_char 4 :: uint_chars u
  | Decimal.D5 u => digit_char 5 :: uint_chars u
  | Decimal.D6 u => digit_char 6 :: uint_chars u
  | Decimal.D7 u => digit_char 7 :: uint_chars u
  | Decimal.D8 u => digit_char 8 :: uint_chars u
  | Decimal.D9 u => digit_char 9 :: uint_chars u
  end.

Definition int_repr (z : Z) : pystr :=
  match Z.to_int z with
  | Decimal.Pos u => uint_chars u
  | Decimal.Neg u => ch "-" :: uint_chars u
  end.

(** *** Encoding values: [_iterencode] with an indent *)

(** ['\n' + _indent * level] *)
Definition newline_indent (indent : pystr) (level : nat) : pystr :=
  10 :: List.concat (repeat indent level).

(** The chunks of the items of a list or dictionary, the separator
    before every item but the first. *)
Fixpoint join (separator : pystr) (items : list pystr) : pystr :=
  match items with
  | [] => []
  | [x] => x
  | x :: rest => x ++ separator ++ join separator rest
  end.

Fixpoint iterencode (indent : pystr) (level : nat) (o : value) : pystr :=
  match o with
  | VNone => str_of "null"
  | VBool true => str_of "true"
  | VBool false => str_of "false"
  | VInt z => int_repr z
  | VStr s => encode_basestring_ascii s
  | VList [] => str_of "[]"
  | VList lst =>
      let nl := newline_indent indent (S level) in
      ch "[" :: nl
        ++ join (ch "," :: nl) (map (iterencode indent (S level)) lst)
        ++ newline_indent indent level ++ [ch "]"]
  | VDict [] => str_of "{}"
  | VDict dct =>
      let nl := newline_indent indent (S level) in
      ch "{" :: nl
        ++ join (ch "," :: nl)
             (map (fun kv =>
                     match kv with
                     | (key, v) =>
                         encode_basestring_ascii key ++ str_of ": "
                           ++ iterencode indent (S level) v
                     end) dct)
        ++ newline_indent indent level ++ [ch "}"]
  end.

(** [json.dumps(o, indent=n)] *)
Definition dumps (o : value) (indent : nat) : pystr :=
  iterencode (repeat (ch " ") indent) 0 o.

(** *** Decoding strings: [scanstring], strict *)

Definition hex_value (c : codepoint) : option N :=
  if (ch "0" <=? c) && (c <=? ch "9") then Some (c - ch "0")
  else if (ch "a" <=? c) && (c <=? ch "f") then Some (c - ch "a" + 10)
  else if (ch "A" <=? c) && (c <=? ch "F") then Some (c - ch "A" + 10)
  else None.

(** [_decode_uXXXX] on the four characters after [\u]. *)
Definition decode_hex4 (h1 h2 h3 h4 : codepoint) : option N :=
  match hex_value h1, hex_value h2, hex_value h3, hex_value h4 with
  | Some a, Some b, Some c, Some d => Some (((a * 16 + b) * 16 + c) * 16 + d)
  | _, _, _, _ => None
  end.

(** The [BACKSLASH] table. *)
Definition unescape (esc : codepoint) : option codepoint :=
  if esc =? quote then Some quote
  else if esc =? backslash then Some backslash
  else if esc =? ch "/" then Some (ch "/")
  else if esc =? ch "b" then Some 8
  else if esc =? ch "f" then Some 12
  else if esc =? ch "n" then Some 10
  else if esc =? ch "r" then Some 13
  else if esc =? ch "t" then Some 9
  else None.

Definition is_high_surrogate (c : N) : bool := (55296 <=? c) && (c <=? 56319).
Definition is_low_surrogate (c : N) : bool := (56320 <=? c) && (c <=? 57343).

Definition join_surrogates (uni uni2 : N) : N :=
  65536 + N.lor (N.shiftl (uni - 55296) 10) (uni2 - 56320).

Definition prepend (c : codepoint) (r : option (pystr * pystr))
  : option (pystr * pystr) :=
  match r with
  | Some (str, rest) => Some (c :: str, rest)
  | None => None
  end.

(** Scans from just after the opening quote; gives the decoded string
    and what follows the closing quote. *)
Fixpoint scanstring (s : pystr) : option (pystr * pystr) :=
  match s with
  | [] => None
  | c :: s1 =>
      if c =? quote then Some ([], s1)
      else if c =? backslash then
        match s1 with
        | [] => None
        | esc :: s2 =>
            if esc =? ch "u" then
              match s2 with
              | h1 :: h2 :: h3 :: h4 :: s3 =>
                  match decode_hex4 h1 h2 h3 h4 with
                  | None => None
                  | Some uni =>
                      if is_high_surrogate uni then
                        match s3 with
                        | [] => prepend uni (scanstring s3)
                        | b :: s3' =>
                            if b =? backslash then
                              match s3' with
                              | u :: g1 :: g2 :: g3 :: g4 :: s4 =>
                                  if u =? ch "u" then
                                    match decode_hex4 g1 g2 g3 g4 with
                                    | None => None
                                    | Some uni2 =>
                                        if is_low_surrogate uni2
                                        then prepend (join_surrogates uni uni2)
                                               (scanstring s4)
                                        else prepend uni (scanstring s3)
                                    end
                                  else prepend uni (scanstring s3)
                              | _ => prepend uni (scanstring s3)
                              end
                            else prepend uni (scanstring s3)
                        end
                      else prepend uni (scanstring s3)
                  end
              | _ => None
              end
            else
              match unescape esc with
              | Some c' => prepend c' (scanstring s2)
              | None => None
              end
        end
      else if c <? 32 then None
      else prepend c (scanstring s1)
  end.

(** *** Decoding numbers: [NUMBER_RE] and [int] *)

Definition digit_value (c : codepoint) : option N :=
  if (ch "0" <=? c) && (c <=? ch "9") then Some (c - ch "0") else None.

Definition push_digit (d : N) (u : Decimal.uint) : Decimal.uint :=
  match d with
  | 0 => Decimal.D0 u | 1 => Decimal.D1 u | 2 => Decimal.D2 u | 3 => Decimal.D3 u | 4 => Decimal.D4 u
  | 5 => Decimal.D5 u | 6 => Decimal.D6 u | 7 => Decimal.D7 u | 8 => Decimal.D8 u | _ => Decimal.D9 u
  end.

(** The longest run of digits at the head of [s]. *)
Fixpoint scan_digits (s : pystr) : Decimal.uint * pystr :=
  match s with
  | [] => (Decimal.Nil, [])
  | c :: s' =>
      match digit_value c with
      | Some d => let '(u, rest) := scan_digits s' in (push_digit d u, rest)
      | None => (Decimal.Nil, s)
      end
  end.

(** A fraction or an exponent after the integer part. *)
Definition starts_float_part (s : pystr) : bool :=
  match s with
  | c :: _ => (c =? ch ".") || (c =? ch "e") || (c =? ch "E")
  | [] => false
  end.

(** [0|[1-9][0-9]*] *)
Definition scan_natural (s : pystr) : option (Decimal.uint * pystr) :=
  match s with
  | [] => None
  | c :: s' =>
      match digit_value c with
      | None => None
      | Some 0 => Some (Decimal.D0 Decimal.Nil, s')
      | Some d => let '(u, rest) := scan_digits s' in Some (push_digit d u, rest)
      end
  end.

Definition scan_number (s : pystr) : option (Z * pystr) :=
  let '(negative, s1) :=
    match s with
    | c :: s' => if c =? ch "-" then (true, s') else (false, s)
    | [] => (false, s)
    end in
  match scan_natural s1 with
  | None => None
  | Some (u, rest) =>
      if starts_float_part rest then None
      else Some (Z.of_int (if negative then Decimal.Neg u else Decimal.Pos u),
                 rest)
  end.

(** *** Decoding values: the scanner *)

Definition is_whitespace (c : codepoint) : bool :=
  (c =? 32) || (c =? 9) || (c =? 10) || (c =? 13).

Fixpoint skip_whitespace (s : pystr) : pystr :=
  match s with
  | c :: s' => if is_whitespace c then skip_whitespace s' else s
  | [] => []
  end.

(** [s] with the literal [lit] taken off its head. *)
Fixpoint strip_prefix (lit s : pystr) : option pystr :=
  match lit, s with
  | [], _ => Some s
  | a :: lit', b :: s' => if a =? b then strip_prefix lit' s' else None
  | _ :: _, [] => None
  end.

Definition pystr_eqb (a b : pystr) : bool :=
  if list_eq_dec N.eq_dec a b then true else false.

(** [d[key] = v] on a dictionary kept in insertion order. *)
Fixpoint dict_set (d : list (pystr * value)) (key : pystr) (v : value)
  : list (pystr * value) :=
  match d with
  | [] => [(key, v)]
  | (k, x) :: d' =>
      if pystr_eqb k key then (k, v) :: d' else (k, x) :: dict_set d' key v
  end.

(** [dict(pairs)] *)
Definition dict_of_pairs (pairs : list (pystr * value)) : list (pystr * value) :=
  fold_left (fun d kv => dict_set d (fst kv) (snd kv)) pairs [].

(** [scan_once] with [JSONArray] and [JSONObject]; the recursion is
    bounded by [fuel], which [loads] takes from the length of its input. *)
Fixpoint scan_once (fuel : nat) (s : pystr) : option (value * pystr) :=
  match fuel with
  | O => None
  | S fuel =>
      match s with
      | [] => None
      | c :: s1 =>
          if c =? quote then
            match scanstring s1 with
            | Some (str, rest) => Some (VStr str, rest)
            | None => None
            end
          else if c =? ch "{" then
            match skip_whitespace s1 with
            | [] => None
            | c2 :: s2 =>
                if c2 =? ch "}" then Some (VDict [], s2)
                else if c2 =? quote then
                  match parse_pairs fuel s2 with
                  | Some (pairs, rest) => Some (VDict (dict_of_pairs pairs), rest)
                  | None => None
                  end
                else None
            end
          else if c =? ch "[" then
            match skip_whitespace s1 with
            | [] => None
            | c2 :: s2 =>
                if c2 =? ch "]" then Some (VList [], s2)
                else
                  match parse_values fuel (c2 :: s2) with
                  | Some (values, rest) => Some (VList values, rest)
                  | None => None
                  end
            end
          else if c =? ch "n" then
            match strip_prefix (str_of "ull") s1 with
            | Some rest => Some (VNone, rest)
            | None => None
            end
          else if c =? ch "t" then
            match strip_prefix (str_of "rue") s1 with
            | Some rest => Some (VBool true, rest)
            | None => None
            end
          else if c =? ch "f" then
            match strip_prefix (str_of "alse") s1 with
            | Some rest => Some (VBool false, rest)
            | None => None
            end
          else
            match scan_number s with
            | Some (z, rest) => Some (VInt z, rest)
            | None => None
            end
      end
  end

with parse_values (fuel : nat) (s : pystr) : option (list value * pystr) :=
  match fuel with
  | O => None
  | S fuel =>
      match scan_once fuel s with
      | None => None
      | Some (v, s1) =>
          match skip_whitespace s1 with
          | [] => None
          | c :: s2 =>
              if c =? ch "]" then Some ([v], s2)
              else if c =? ch "," then
                match parse_values fuel (skip_whitespace s2) with
                | Some (values, rest) => Some (v :: values, rest)
                | None => None
                end
              else None
          end
      end
  end

with parse_pairs (fuel : nat) (s : pystr)
  : option (list (pystr * value) * pystr) :=
  match fuel with
  | O => None
  | S fuel =>
      match scanstring s with
      | None => None
      | Some (key, s1) =>
          match skip_whitespace s1 with
          | [] => None
          | c :: s2 =>
              if c =? ch ":" then
                match scan_once fuel (skip_whitespace s2) with
                | None => None
                | Some (v, s3) =>
                    match skip_whitespace s3 with
                    | [] => None
                    | c3 :: s4 =>
                        if c3 =? ch "}" then Some ([(key, v)], s4)
                        else if c3 =? ch "," then
                          match skip_whitespace s4 with
                          | [] => None
                          | c5 :: s5 =>
                              if c5 =? quote then
                                match parse_pairs fuel s5 with
                                | Some (pairs, rest) =>
                                    Some ((key, v) :: pairs, rest)
                                | None => None
                                end
                              else None
                          end
                        else None
                    end
                end
              else None
          end
      end
  end.

(** [json.loads(s)] *)
Definition loads (s : pystr) : option value :=
  match scan_once (List.length s) (skip_whitespace s) with
  | Some (v, rest) =>
      match skip_whitespace rest with
      | [] => Some v
      | _ :: _ => None
      end
  | None => None
  end.

(** *** Vocabulary of the round trip *)

(** The code points a [str] can hold. *)
Definition is_str (s : pystr) : Prop := Forall (fun c => c < 1114112) s.

(** What [bytes.decode("utf-8")] gives: Unicode scalar values, that is
    code points other than the UTF-16 surrogates. *)
Definition is_scalar (c : codepoint) : Prop :=
  c < 1114112 /\ is_high_surrogate c = false /\ is_low_surrogate c = false.

Definition utf8_decoded (s : pystr) : Prop := Forall is_scalar s.

(** A high surrogate directly followed by a low one is read back by
    [scanstring] as the single character they encode. *)
Fixpoint join_pairs (s : pystr) : pystr :=
  match s with
  | [] => []
  | c :: s1 =>
      match s1 with
      | [] => [c]
      | d :: s2 =>
          if is_high_surrogate c && is_low_surrogate d
          then join_surrogates c d :: join_pairs s2
          else c :: join_pairs s1
      end
  end.

(** No high surrogate is directly followed by a low one. *)
Fixpoint pair_free (s : pystr) : Prop :=
  match s with
  | [] => True
  | c :: s1 =>
      match s1 with
      | [] => True
      | d :: _ => is_high_surrogate c && is_low_surrogate d = false
      end /\ pair_free s1
  end.

(** Values that are read back as they were written. *)
Inductive wf_value : value -> Prop :=
| wf_VNone : wf_value VNone
| wf_VBool b : wf_value (VBool b)
| wf_VInt z : wf_value (VInt z)
| wf_VStr s : is_str s -> pair_free s -> wf_value (VStr s)
| wf_VList l : Forall wf_value l -> wf_value (VList l)
| wf_VDict d :
    Forall (fun kv => is_str (fst kv) /\ pair_free (fst kv)
                      /\ wf_value (snd kv)) d ->
    NoDup (map fst d) ->
    wf_value (VDict d).

(** A bound on the fuel the scanner needs for a value. *)
Fixpoint size (v : value) : nat :=
  match v with
  | VList l => S (list_sum (map (fun x => S (size x)) l))
  | VDict d =>
      S (list_sum (map (fun kv => match kv with (_, x) => S (size x) end) d))
  | _ => 1%nat
  end.

(** One item of a written dictionary. *)
Definition encode_item (indent : pystr) (level : nat) (kv : pystr * value)
  : pystr :=
  match kv with
  | (key, v) =>
      encode_basestring_ascii key ++ str_of ": " ++ iterencode indent level v
  end.

(** Nothing but whitespace. *)
Definition blank (s : pystr) : Prop :=
  Forall (fun c => is_whitespace c = true) s.

(** The head of [rest] is no digit. *)
Definition not_digit (rest : pystr) : Prop :=
  match rest with
  | [] => True
  | c :: _ => digit_value c = None
  end.

(** What can follow a value in the encoder's output: nothing, a comma,
    or a newline. *)
Definition delimited (rest : pystr) : Prop :=
  match rest with
  | [] => True
  | c :: _ => c = ch "," \/ c = 10
  end.

End Json.

(** ** [save_annotations] *)

(** The dictionary of one annotation as a Python value. *)
Definition annotation_value (a : annotation) : Json.value :=
  Json.VDict
    [(str_of "start_pos", Json.VInt (start_pos a));
     (str_of "end_pos", Json.VInt (end_pos a));
     (str_of "label", Json.VStr (label a));
     (str_of "text_fragment", Json.VStr (text_fragment a))].

Definition annotated_data (text : pystr) (annotations : list annotation)
  : Json.value :=
  Json.VDict
    [(str_of "text", Json.VStr text);
     (str_of "annotations", Json.VList (map annotation_value annotations))].

Definition save_annotations (text : pystr) (annotations : list annotation)
  : pystr :=
  Json.dumps (annotated_data text annotations) 4.

(** An annotation as the decoder gives it back: in its strings every
    surrogate pair is joined. *)
Definition join_annotation (a : annotation) : annotation :=
  mkAnnotation (start_pos a) (end_pos a)
    (Json.join_pairs (label a)) (Json.join_pairs (text_fragment a)).


(** ** The page view of [main] *)


(** [enumerate(l)] *)
Definition enumerate {A} (l : list A) : list (Z * A) :=
  combine (map Z.of_nat (seq 0 (List.length l))) l.

(** The items of the comprehension that builds [indexed_text]:
    [f"{i+start_index}: {char}"] for each character of the page. *)
Definition indexed_lines (current_page_text : pystr) (start_index : Z)
  : list pystr :=
  map (fun ic =>
         match ic with
         | (i, char) =>
             Json.int_repr (i + start_index) ++ str_of ": " ++ [char]
         end)
    (enumerate current_page_text).



(** ** Vocabulary of the further properties *)

(** The integers [a, a+1, ..., b-1]. *)
Definition interval (a b : Z) : list Z :=
  map (fun j => a + Z.of_nat j) (seq 0 (Z.to_nat (b - a))).

(** The line of the page view for the character at offset [k]. *)
Definition offset_line (text : pystr) (k : Z) : pystr :=
  Json.int_repr k ++ str_of ": " ++ slice text k (k + 1).

Definition is_highlight (f : fragment) : bool :=
  match f with
  | Highlight _ _ _ => true
  | Plain _ => false
  end.

(** The tuple the renderer emits for an annotation. *)
Definition highlight_of (text : pystr) (a : annotation) : fragment :=
  Highlight (slice text (start_pos a) (end_pos a)) (label a) highlight_color.

(** Some fragment of [out] is a slice of the text that holds
    position [p]. *)
Definition shows (text : pystr) (out : list fragment) (p : Z) : Prop :=
  exists f a b,
    In f out /\ fragment_text f = slice text a b
    /\ 0 <= a /\ a <= p /\ p < b /\ b <= len text.

(** Printable ASCII, or a newline. *)
Definition printable (c : codepoint) : Prop :=
  c = 10%N \/ (32 <= c /\ c <= 126)%N.

(** A record whose strings are read back as they are written and whose
    positions fit a machine index. *)
Definition plain_record (a : annotation) : Prop :=
  Json.is_str (label a) /\ Json.pair_free (label a)
  /\ Json.is_str (text_fragment a) /\ Json.pair_free (text_fragment a)
  /\ - 2 ^ 63 <= start_pos a < 2 ^ 63 /\ - 2 ^ 63 <= end_pos a < 2 ^ 63.

(** ** A sample session *)

Definition sample_text : pystr := str_of "Alice went to Paris.".

Definition sample_annotations : list annotation :=
  [mkAnnotation 0 5 (str_of "PERSON") (str_of "Alice");
   mkAnnotation 14 19 (str_of "LOCATION") (str_of "Paris")].

(** * Properties *)

(** ** Slicing *)

Section SliceFacts.
Context {A : Type}.
Implicit Types s : list A.

Lemma adjust_index_inside n i : 0 <= i <= n -> adjust_index n i = i.
Proof.
  intros H. unfold adjust_index.
  destruct (Z.ltb_spec i 0); [lia|].
  destruct (Z.ltb_spec n i); lia.
Qed.

Lemma adjust_index_bounds n i : 0 <= n -> 0 <= adjust_index n i <= n.
Proof.
  intros H. unfold adjust_index.
  destruct (Z.ltb_spec i 0).
  - destruct (Z.ltb_spec (i + n) 0); lia.
  - destruct (Z.ltb_spec n i); lia.
Qed.

Lemma firstn_plus (n m : nat) s :
  firstn (n + m) s = firstn n s ++ firstn m (skipn n s).
Proof.
  revert s. induction n as [|n IH]; intros [|x s]; simpl; trivial.
  - now rewrite firstn_nil.
  - now rewrite IH.
Qed.

Lemma len_nonneg s : 0 <= len s.
Proof. unfold len. lia. Qed.

Lemma slice_inside s a b :
  0 <= a <= len s -> 0 <= b <= len s ->
  slice s a b = firstn (Z.to_nat (b - a)) (skipn (Z.to_nat a) s).
Proof.
  intros Ha Hb. unfold slice.
  now rewrite !adjust_index_inside.
Qed.

Lemma slice_from_inside s a :
  0 <= a <= len s -> slice_from s a = skipn (Z.to_nat a) s.
Proof.
  intros Ha. unfold slice_from. now rewrite adjust_index_inside.
Qed.

Lemma slice_length s a b :
  0 <= a <= b -> b <= len s ->
  len (slice s a b) = b - a.
Proof.
  intros Hab Hb. rewrite slice_inside by lia.
  unfold len in *. rewrite length_firstn, length_skipn. lia.
Qed.

Lemma slice_empty s a b :
  0 <= b <= a -> a <= len s -> slice s a b = [].
Proof.
  intros Hab Hb. rewrite slice_inside by lia.
  replace (Z.to_nat (b - a)) with 0%nat by lia. reflexivity.
Qed.

Lemma firstn_slice s a b :
  0 <= a <= b -> b <= len s ->
  firstn (Z.to_nat a) s ++ slice s a b = firstn (Z.to_nat b) s.
Proof.
  intros Hab Hb. rewrite slice_inside by lia.
  replace (Z.to_nat b) with (Z.to_nat a + Z.to_nat (b - a))%nat by lia.
  now rewrite firstn_plus.
Qed.

Lemma firstn_slice_from s a :
  0 <= a <= len s -> firstn (Z.to_nat a) s ++ slice_from s a = s.
Proof.
  intros Ha. rewrite slice_from_inside by lia. apply firstn_skipn.
Qed.

Lemma firstn_len s : firstn (Z.to_nat (len s)) s = s.
Proof. unfold len. rewrite Nat2Z.id. apply firstn_all. Qed.
End SliceFacts.

(** ** The stable sort *)

Section SortedFacts.
Context {A : Type} (key : A -> Z).

Lemma insert_perm a l : Permutation (insert key a l) (a :: l).
Proof.
  induction l as [|b l IH]; simpl; [reflexivity|].
  destruct (key a <=? key b); [reflexivity|].
  rewrite IH. apply perm_swap.
Qed.

Lemma sorted_perm l : Permutation (sorted key l) l.
Proof.
  induction l as [|a l IH]; simpl; [constructor|].
  rewrite insert_perm. now constructor.
Qed.

Lemma insert_ordered a l :
  StronglySorted (key_le key) l -> StronglySorted (key_le key) (insert key a l).
Proof.
  induction 1 as [|b l Hl IH Hb]; simpl.
  - repeat constructor.
  - destruct (Z.leb_spec (key a) (key b)) as [Hab|Hab].
    + constructor; [now constructor|].
      constructor; [exact Hab|].
      eapply Forall_impl; [|exact Hb]. unfold key_le. intros; lia.
    + constructor; [exact IH|].
      eapply Permutation_Forall; [symmetry; apply insert_perm|].
      constructor; [unfold key_le; lia | exact Hb].
Qed.

Lemma sorted_ordered l : StronglySorted (key_le key) (sorted key l).
Proof.
  induction l as [|a l IH]; simpl; [constructor|].
  now apply insert_ordered.
Qed.

(** Stability: the elements of any one key keep their input order. *)
Lemma insert_stable k a l :
  StronglySorted (key_le key) l ->
  filter (fun x => key x =? k) (insert key a l)
  = filter (fun x => key x =? k) (a :: l).
Proof.
  induction 1 as [|b l Hl IH Hb]; [reflexivity|].
  cbn [insert]. destruct (Z.leb_spec (key a) (key b)) as [Hab|Hab]; [reflexivity|].
  cbn [filter] in *. rewrite IH.
  destruct (Z.eqb_spec (key a) k), (Z.eqb_spec (key b) k); trivial.
  lia.
Qed.

Lemma sorted_stable k l :
  filter (fun x => key x =? k) (sorted key l) = filter (fun x => key x =? k) l.
Proof.
  induction l as [|a l IH]; [reflexivity|].
  cbn [sorted fold_right]. rewrite insert_stable by apply sorted_ordered.
  cbn [filter]. fold (sorted key l). now rewrite IH.
Qed.
End SortedFacts.

(** ** The span renderer *)

Lemma ForallOrdPairs_perm {A} (R : A -> A -> Prop) l l' :
  (forall x y, R x y -> R y x) ->
  Permutation l l' -> ForallOrdPairs R l -> ForallOrdPairs R l'.
Proof.
  intros Hsym. induction 1 as [|x l l' Hp IH|x y l|l l' l'' _ IH1 _ IH2]; intros H.
  - exact H.
  - inversion H; subst. constructor; [|now apply IH].
    eapply Permutation_Forall; eauto.
  - inversion H as [|? ? Hy Hxl]; subst.
    inversion Hxl as [|? ? Hx Hl]; subst.
    inversion Hy; subst.
    constructor; [|now constructor].
    constructor; [now apply Hsym | assumption].
  - auto.
Qed.

Lemma spans_disjoint_sym a b : spans_disjoint a b -> spans_disjoint b a.
Proof. unfold spans_disjoint. tauto. Qed.

Lemma ordered_disjoint_chained text l :
  StronglySorted (key_le start_pos) l ->
  Forall (span_in_text text) l ->
  ForallOrdPairs spans_disjoint l ->
  forall c, c <= len text -> Forall (fun a => c <= start_pos a) l ->
  chained text c l.
Proof.
  induction 1 as [|a l Hl IH Ha]; intros Hin Hdis c Hc Hfrom.
  - now constructor.
  - inversion Hin as [|? ? Hina Hinl]; subst.
    inversion Hdis as [|? ? Hda Hdl]; subst.
    inversion Hfrom as [|? ? Hca _]; subst.
    constructor; trivial.
    apply IH; trivial; [unfold span_in_text in Hina; lia|].
    rewrite Forall_forall in *. intros b Hb.
    specialize (Ha b Hb). specialize (Hda b Hb). specialize (Hinl b Hb).
    unfold key_le, spans_disjoint, span_in_text in *. lia.
Qed.

Lemma sweep_chained text l :
  forall c out, chained text c l -> 0 <= c ->
  fragments_text out = firstn (Z.to_nat c) text ->
  exists out' c',
    fold_left (sweep_step text) l (out, c) = (out', c')
    /\ fragments_text out' = firstn (Z.to_nat c') text
    /\ 0 <= c' <= len text.
Proof.
  induction l as [|a l IH]; intros c out Hch Hc Hout.
  - inversion Hch; subst. exists out, c. repeat split; trivial.
  - inversion Hch as [|? ? ? Hca Hin Hrest]; subst.
    unfold span_in_text in Hin.
    cbn [fold_left sweep_step].
    apply IH; trivial; [lia|].
    unfold fragments_text in *.
    destruct (Z.ltb_spec c (start_pos a)) as [Hlt|Hge].
    + rewrite !map_app, !concat_app. cbn [map List.concat fragment_text].
      rewrite !app_nil_r, Hout.
      rewrite firstn_slice by lia. apply firstn_slice; lia.
    + rewrite map_app, concat_app. cbn [map List.concat fragment_text].
      rewrite app_nil_r, Hout.
      replace c with (start_pos a) by lia. apply firstn_slice; lia.
Qed.

(** C8: when every span lies inside the text, is not empty, and no two
    spans overlap, the fragments read in order give back the text. *)
Theorem get_annotated_text_covers text annotations :
  Forall (span_in_text text) annotations ->
  ForallOrdPairs spans_disjoint annotations ->
  fragments_text (get_annotated_text text annotations) = text.
Proof.
  intros Hin Hdis.
  assert (Hch : chained text 0 (sorted start_pos annotations)).
  { apply ordered_disjoint_chained.
    - apply sorted_ordered.
    - eapply Permutation_Forall; [symmetry; apply sorted_perm | exact Hin].
    - eapply ForallOrdPairs_perm;
        [exact spans_disjoint_sym | symmetry; apply sorted_perm | exact Hdis].
    - apply len_nonneg.
    - eapply Permutation_Forall; [symmetry; apply sorted_perm|].
      eapply Forall_impl; [|exact Hin]. unfold span_in_text. intros; lia. }
  destruct (sweep_chained text _ 0 [] Hch) as (out & c & Hfold & Hout & Hc);
    [lia | reflexivity |].
  unfold get_annotated_text. rewrite Hfold.
  destruct (Z.ltb_spec c (len text)) as [Hlt|Hge].
  - unfold fragments_text in *. rewrite map_app, concat_app.
    cbn [map List.concat fragment_text]. rewrite app_nil_r, Hout.
    apply firstn_slice_from; lia.
  - rewrite Hout. replace c with (len text) by lia. apply firstn_len.
Qed.

(** C1: the overlap example.  Both highlights are emitted and no plain
    gap separates them; in general one loop iteration appends the
    highlight whatever the cursor is, and puts a plain gap before it
    exactly when the span starts after the cursor. *)
Theorem get_annotated_text_overlap :
  (forall tf1 tf2,
     get_annotated_text (str_of "abcdefghij")
       [mkAnnotation 0 5 (str_of "A") tf1; mkAnnotation 3 8 (str_of "B") tf2]
     = [Highlight (str_of "abcde") (str_of "A") highlight_color;
        Highlight (str_of "defgh") (str_of "B") highlight_color;
        Plain (str_of "ij")])
  /\ (forall text out cursor a,
        let hl := Highlight (slice text (start_pos a) (end_pos a)) (label a)
                    highlight_color in
        exists gap,
          fst (sweep_step text (out, cursor) a) = out ++ gap ++ [hl]
          /\ (cursor < start_pos a ->
              gap = [Plain (slice text cursor (start_pos a))])
          /\ (start_pos a <= cursor -> gap = [])).
Proof.
  split; [reflexivity|].
  intros text out cursor a hl. cbn [sweep_step fst].
  destruct (Z.ltb_spec cursor (start_pos a)) as [Hlt|Hge].
  - exists [Plain (slice text cursor (start_pos a))].
    rewrite <- app_assoc. repeat split; trivial. lia.
  - exists []. repeat split; trivial. lia.
Qed.

(** C9: a span nested in an earlier, longer one.  The cursor becomes the
    [end_pos] of each processed span whatever it was before, so it moves
    back from 10 to 3 and the trailing plain fragment repeats
    characters of the first highlight. *)
Theorem get_annotated_text_nested :
  (forall tf1 tf2,
     get_annotated_text (str_of "abcdefghij")
       [mkAnnotation 0 10 (str_of "A") tf1; mkAnnotation 2 3 (str_of "B") tf2]
     = [Highlight (str_of "abcdefghij") (str_of "A") highlight_color;
        Highlight (str_of "c") (str_of "B") highlight_color;
        Plain (str_of "defghij")])
  /\ (forall text st a, snd (sweep_step text st a) = end_pos a).
Proof.
  split; [reflexivity|].
  intros text [out cursor] a. reflexivity.
Qed.

(** C7: with no annotation the whole text is one plain fragment, and an
    empty text gives no fragment at all. *)
Theorem get_annotated_text_no_annotations :
  (forall c text, get_annotated_text (c :: text) [] = [Plain (c :: text)])
  /\ get_annotated_text [] [] = [].
Proof.
  split; [|reflexivity].
  intros c text. unfold get_annotated_text. cbn [sorted fold_right fold_left].
  destruct (Z.ltb_spec 0 (len (c :: text))) as [_|H].
  - reflexivity.
  - unfold len in H. cbn [List.length] in H. lia.
Qed.

(** ** The paginator *)

Lemma ceil_div_spec n d :
  0 < d -> (ceil_div n d - 1) * d < n <= ceil_div n d * d.
Proof.
  intros Hd. unfold ceil_div.
  pose proof (Z.div_mod (n + d - 1) d) as E.
  pose proof (Z.mod_pos_bound (n + d - 1) d Hd). nia.
Qed.

Lemma range_length_up n step :
  0 < step -> 0 <= n -> Z.of_nat (range_length 0 n step) = ceil_div n step.
Proof.
  intros Hs Hn. unfold range_length, ceil_div.
  destruct (Z.ltb_spec 0 step); [|lia].
  destruct (Z.ltb_spec 0 n) as [Hpos|Hz].
  - replace (n + step - 1) with (n - 1 + 1 * step) by lia.
    rewrite Z.div_add by lia. rewrite Z.sub_0_r.
    pose proof (Z.div_pos (n - 1) step). lia.
  - replace n with 0 by lia. rewrite Z.div_small by lia. reflexivity.
Qed.

Lemma slice_window {A} (s : list A) a b :
  0 <= a <= len s -> a <= b ->
  slice s a b = firstn (Z.to_nat (b - a)) (skipn (Z.to_nat a) s).
Proof.
  intros Ha Hab. destruct (Z.le_gt_cases b (len s)) as [Hb|Hb].
  - apply slice_inside; lia.
  - unfold slice. rewrite (adjust_index_inside _ a) by lia.
    unfold adjust_index. destruct (Z.ltb_spec b 0); [lia|].
    destruct (Z.ltb_spec (len s) b); [|lia].
    rewrite !firstn_all2; trivial; rewrite length_skipn; unfold len in *; lia.
Qed.

Lemma pages_concat (text : pystr) P (k : nat) :
  0 < P -> (Z.of_nat k - 1) * P < len text ->
  List.concat (map (fun i => slice text i (i + P))
                 (map (fun j => 0 + Z.of_nat j * P) (seq 0 k)))
  = firstn (Z.to_nat (Z.of_nat k * P)) text.
Proof.
  intros HP. induction k as [|k IH]; intros Hk; [reflexivity|].
  rewrite seq_S, !map_app, concat_app, IH by lia.
  cbn [map List.concat Nat.add]. rewrite app_nil_r.
  rewrite slice_window by lia.
  replace (0 + Z.of_nat k * P + P - (0 + Z.of_nat k * P)) with P by lia.
  replace (Z.to_nat (Z.of_nat (S k) * P))
    with (Z.to_nat (Z.of_nat k * P) + Z.to_nat P)%nat by lia.
  rewrite firstn_plus. reflexivity.
Qed.

(** C2: for a positive page size the paginator returns [ceil(N/P)]
    pages, page [i] being the window of the text that starts at [i*P];
    every page before the last has [P] characters, the last has the
    remainder ([N mod P], or [P] when [P] divides [N]), and the pages
    put together are the text. *)
Theorem paginate_text_complete text P :
  0 < P ->
  exists pages,
    paginate_text text P = Ok pages
    /\ len pages = ceil_div (len text) P
    /\ (len text = 0 -> pages = [])
    /\ (forall i page, nth_error pages i = Some page ->
          page = slice text (Z.of_nat i * P) (Z.of_nat i * P + P)
          /\ (Z.of_nat i < len pages - 1 -> len page = P)
          /\ (Z.of_nat i = len pages - 1 ->
              len page = if len text mod P =? 0 then P else len text mod P))
    /\ List.concat pages = text.
Proof.
  intros HP. unfold paginate_text, range.
  destruct (Z.eqb_spec P 0) as [|_]; [lia|].
  eexists. split; [reflexivity|].
  pose proof (len_nonneg text) as HN.
  pose proof (range_length_up (len text) P HP HN) as Hcnt.
  pose proof (ceil_div_spec (len text) P HP) as Hceil.
  set (pages := map _ (map _ (seq 0 _))).
  assert (Hpages : @len pystr pages = ceil_div (len text) P).
  { unfold len at 1, pages. rewrite !length_map, length_seq. exact Hcnt. }
  split; [exact Hpages|]. rewrite Hpages. clear Hpages. subst pages.
  split; [|split].
  - intros H0. rewrite H0 in *.
    destruct (range_length 0 0 P); [reflexivity|lia].
  - intros i page Hi.
    rewrite !nth_error_map in Hi.
    destruct (nth_error (seq 0 (range_length 0 (len text) P)) i) as [j|] eqn:Hj;
      [|discriminate].
    assert (Hlt : (i < range_length 0 (len text) P)%nat).
    { assert (Hsome : nth_error (seq 0 (range_length 0 (len text) P)) i <> None)
        by congruence.
      apply nth_error_Some in Hsome. now rewrite length_seq in Hsome. }
    apply nth_error_nth with (d := 0%nat) in Hj.
    rewrite seq_nth in Hj by exact Hlt. cbn [Nat.add] in Hj. subst j.
    cbn [option_map] in Hi. injection Hi as <-.
    replace (0 + Z.of_nat i * P) with (Z.of_nat i * P) by lia.
    split; [reflexivity|].
    assert (Hstart : 0 <= Z.of_nat i * P < len text) by nia.
    rewrite slice_window by lia.
    replace (Z.of_nat i * P + P - Z.of_nat i * P) with P by lia.
    assert (Hpl : len (firstn (Z.to_nat P)
                         (skipn (Z.to_nat (Z.of_nat i * P)) text))
                  = Z.min P (len text - Z.of_nat i * P)).
    { unfold len in *. rewrite length_firstn, length_skipn. lia. }
    rewrite Hpl. clear Hpl. split.
    + intros Hbefore.
      assert ((Z.of_nat i + 1) * P <= (ceil_div (len text) P - 1) * P)
        by (apply Z.mul_le_mono_nonneg_r; lia).
      lia.
    + intros Hlast.
      assert (Hrem : 0 < len text - Z.of_nat i * P <= P) by nia.
      rewrite Z.min_r by lia.
      destruct (Z.eqb_spec (len text mod P) 0) as [Hm|Hm].
      * apply Z.mod_divide in Hm; [|lia]. destruct Hm as [q Hq].
        rewrite Hq in *.
        assert (Hq1 : q - Z.of_nat i = 1) by nia.
        replace q with (Z.of_nat i + 1) by lia. lia.
      * apply Z.mod_unique with (q := Z.of_nat i); [|lia].
        left. destruct (Z.eq_dec (len text - Z.of_nat i * P) P) as [E|E]; [|lia].
        exfalso. apply Hm. apply Z.mod_divide; [lia|].
        exists (Z.of_nat i + 1). lia.
  - rewrite pages_concat by lia.
    rewrite firstn_all2; [reflexivity|]. unfold len in *. lia.
Qed.

Lemma range_negative_step n step :
  0 <= n -> step < 0 -> range 0 n step = Ok [].
Proof.
  intros Hn Hs. unfold range, range_length.
  destruct (Z.eqb_spec step 0); [lia|].
  destruct (Z.ltb_spec 0 step); [lia|].
  destruct (Z.ltb_spec n 0); [lia|]. reflexivity.
Qed.

(** C10: a negative page size gives no pages and raises nothing. *)
Theorem paginate_text_negative_size text P :
  P < 0 -> paginate_text text P = Ok [].
Proof.
  intros HP. unfold paginate_text.
  now rewrite range_negative_step by (trivial; apply len_nonneg).
Qed.

(** C4, as the code has it: a positive page size never fails, page
    size 0 fails with the [ValueError] of [range], and a negative page
    size is not rejected but gives the empty list of pages. *)
Theorem paginate_text_failure_modes text P :
  (0 < P -> exists pages, paginate_text text P = Ok pages)
  /\ (P = 0 ->
      paginate_text text P
      = Raise (ValueError "range() arg 3 must not be zero"))
  /\ (P < 0 -> paginate_text text P = Ok []).
Proof.
  split; [|split].
  - intros HP. unfold paginate_text, range.
    destruct (Z.eqb_spec P 0); [lia|]. eexists. reflexivity.
  - intros ->. reflexivity.
  - intros HP. unfold paginate_text.
    now rewrite range_negative_step by (trivial; apply len_nonneg).
Qed.

(** ** The add-annotation step *)

(** C3: the step accepts exactly the positions with
    [0 <= start < end <= N]; it then appends the record with the slice
    of the text as [text_fragment], and otherwise shows the error and
    returns the list it was given. *)
Theorem add_annotation_validates text annotations start_pos end_pos label :
  (0 <= start_pos /\ start_pos < end_pos /\ end_pos <= len text ->
   add_annotation text annotations start_pos end_pos label
   = (annotations ++ [mkAnnotation start_pos end_pos label
                        (slice text start_pos end_pos)],
      success "Annotation Added!"))
  /\ (~ (0 <= start_pos /\ start_pos < end_pos /\ end_pos <= len text) ->
      add_annotation text annotations start_pos end_pos label
      = (annotations, error "Invalid annotation positions.")).
Proof.
  unfold add_annotation.
  destruct (Z.leb_spec 0 start_pos) as [H1|H1],
    (Z.ltb_spec start_pos end_pos) as [H2|H2],
    (Z.leb_spec end_pos (len text)) as [H3|H3]; cbn [andb];
    split; intros H; trivial; lia.
Qed.

(** ** The [json] module *)

Module JsonFacts.
Import Json.
Local Open Scope N_scope.

(** *** Hexadecimal escapes *)

Lemma hex_value_hex_digit d : d < 16 -> hex_value (hex_digit d) = Some d.
Proof.
  intros H.
  assert (E : d = 0 \/ d = 1 \/ d = 2 \/ d = 3 \/ d = 4 \/ d = 5 \/ d = 6
              \/ d = 7 \/ d = 8 \/ d = 9 \/ d = 10 \/ d = 11 \/ d = 12
              \/ d = 13 \/ d = 14 \/ d = 15) by lia.
  repeat (destruct E as [->|E]; [reflexivity|]). now subst.
Qed.

Lemma decode_hex4_hex4 n rest :
  n < 65536 ->
  exists h1 h2 h3 h4,
    hex4 n ++ rest = h1 :: h2 :: h3 :: h4 :: rest
    /\ decode_hex4 h1 h2 h3 h4 = Some n.
Proof.
  intros H. do 4 eexists. split; [reflexivity|].
  unfold decode_hex4.
  rewrite !hex_value_hex_digit by (apply N.mod_lt; discriminate).
  f_equal.
  pose proof (N.div_mod n 16 ltac:(discriminate)).
  pose proof (N.div_mod (n / 16) 16 ltac:(discriminate)).
  pose proof (N.div_mod (n / 16 / 16) 16 ltac:(discriminate)).
  rewrite !N.Div0.div_div in *.
  change (16 * 16) with 256 in *. change (256 * 16) with 4096 in *.
  assert (n / 4096 < 16) by (apply N.Div0.div_lt_upper_bound; lia).
  rewrite (N.mod_small (n / 4096)) by assumption. lia.
Qed.

(** *** Surrogate pairs *)

Lemma lor_low a x k : x < 2 ^ k -> N.lor (a * 2 ^ k) x = a * 2 ^ k + x.
Proof.
  intros Hx.
  assert (Hand : N.land (a * 2 ^ k) x = 0).
  { apply N.bits_inj. intros i. rewrite N.land_spec, N.bits_0.
    destruct (N.lt_ge_cases i k) as [Hi|Hi].
    - now rewrite N.mul_pow2_bits_low.
    - rewrite <- (N.mod_small x (2 ^ k)) by exact Hx.
      rewrite N.mod_pow2_bits_high by exact Hi. apply andb_false_r. }
  now rewrite N.add_nocarry_lxor, N.lxor_lor.
Qed.

Lemma high_surrogate_range c : is_high_surrogate c = true <-> 55296 <= c <= 56319.
Proof.
  unfold is_high_surrogate. rewrite andb_true_iff, !N.leb_le. tauto.
Qed.

Lemma low_surrogate_range c : is_low_surrogate c = true <-> 56320 <= c <= 57343.
Proof.
  unfold is_low_surrogate. rewrite andb_true_iff, !N.leb_le. tauto.
Qed.

Lemma join_surrogates_value c d :
  is_high_surrogate c = true -> is_low_surrogate d = true ->
  join_surrogates c d = 65536 + (c - 55296) * 1024 + (d - 56320).
Proof.
  rewrite high_surrogate_range, low_surrogate_range. intros Hc Hd.
  unfold join_surrogates. rewrite N.shiftl_mul_pow2.
  rewrite lor_low by (change (2 ^ 10) with 1024; lia).
  change (2 ^ 10) with 1024. lia.
Qed.

(** The two halves the encoder writes for a character beyond the BMP. *)
Lemma surrogate_halves c :
  65536 <= c < 1114112 ->
  let n := c - 65536 in
  N.lor 55296 (N.land (N.shiftr n 10) 1023) = 55296 + n / 1024
  /\ N.lor 56320 (N.land n 1023) = 56320 + n mod 1024
  /\ n / 1024 < 1024.
Proof.
  intros Hc n.
  assert (Hn : n < 1048576) by (unfold n; lia).
  assert (Hq : n / 1024 < 1024) by (apply N.Div0.div_lt_upper_bound; lia).
  change 1023 with (N.ones 10). rewrite !N.land_ones, N.shiftr_div_pow2.
  change (2 ^ 10) with 1024. rewrite (N.mod_small (n / 1024)) by exact Hq.
  change 55296 with (54 * 2 ^ 10). change 56320 with (55 * 2 ^ 10).
  rewrite !lor_low; change (2 ^ 10) with 1024; auto.
  apply N.mod_lt. discriminate.
Qed.

(** *** [scanstring] on the encoder's escapes *)

Lemma scanstring_plain c s :
  c <> quote -> c <> backslash -> 32 <= c ->
  scanstring (c :: s) = prepend c (scanstring s).
Proof.
  intros Hq Hb Hc. cbn [scanstring].
  destruct (N.eqb_spec c quote); [contradiction|].
  destruct (N.eqb_spec c backslash); [contradiction|].
  destruct (N.ltb_spec c 32); [lia|]. reflexivity.
Qed.

Lemma scanstring_short x c s :
  unescape x = Some c -> x <> ch "u" ->
  scanstring (backslash :: x :: s) = prepend c (scanstring s).
Proof.
  intros Hx Hu. cbn [scanstring].
  change (backslash =? quote) with false.
  change (backslash =? backslash) with true. cbn match.
  destruct (N.eqb_spec x (ch "u")); [contradiction|].
  now rewrite Hx.
Qed.

Lemma scanstring_u h1 h2 h3 h4 s3 :
  scanstring (backslash :: ch "u" :: h1 :: h2 :: h3 :: h4 :: s3)
  = match decode_hex4 h1 h2 h3 h4 with
    | None => None
    | Some uni =>
        if is_high_surrogate uni then
          match s3 with
          | [] => prepend uni (scanstring s3)
          | b :: s3' =>
              if b =? backslash then
                match s3' with
                | u :: g1 :: g2 :: g3 :: g4 :: s4 =>
                    if u =? ch "u" then
                      match decode_hex4 g1 g2 g3 g4 with
                      | None => None
                      | Some uni2 =>
                          if is_low_surrogate uni2
                          then prepend (join_surrogates uni uni2) (scanstring s4)
                          else prepend uni (scanstring s3)
                      end
                    else prepend uni (scanstring s3)
                | _ => prepend uni (scanstring s3)
                end
              else prepend uni (scanstring s3)
          end
        else prepend uni (scanstring s3)
    end.
Proof. reflexivity. Qed.

(** A [\uXXXX] escape that is not a high surrogate. *)
Lemma scanstring_bmp c tail :
  c < 65536 -> is_high_surrogate c = false ->
  scanstring (u_escape c ++ tail) = prepend c (scanstring tail).
Proof.
  intros Hc Hh. destruct (decode_hex4_hex4 c tail Hc) as (h1 & h2 & h3 & h4 & E & D).
  unfold u_escape. cbn [app]. rewrite E, scanstring_u, D, Hh. reflexivity.
Qed.

(** A high surrogate, and after it something that does not start with a
    backslash. *)
Lemma scanstring_high_end c tail :
  c < 65536 ->
  match tail with [] => True | b :: _ => b <> backslash end ->
  scanstring (u_escape c ++ tail) = prepend c (scanstring tail).
Proof.
  intros Hc Ht. destruct (decode_hex4_hex4 c tail Hc) as (h1 & h2 & h3 & h4 & E & D).
  unfold u_escape. cbn [app]. rewrite E, scanstring_u, D.
  destruct (is_high_surrogate c); [|reflexivity].
  destruct tail as [|b tail]; [reflexivity|].
  destruct (N.eqb_spec b backslash); [contradiction|reflexivity].
Qed.

(** A high surrogate, and after it a short escape. *)
Lemma scanstring_high_short c x tail :
  c < 65536 -> x <> ch "u" ->
  scanstring (u_escape c ++ backslash :: x :: tail)
  = prepend c (scanstring (backslash :: x :: tail)).
Proof.
  intros Hc Hx.
  destruct (decode_hex4_hex4 c (backslash :: x :: tail) Hc)
    as (h1 & h2 & h3 & h4 & E & D).
  unfold u_escape. cbn [app]. rewrite E, scanstring_u, D.
  destruct (is_high_surrogate c); [|reflexivity].
  change (backslash =? backslash) with true. cbn match.
  destruct tail as [|g1 [|g2 [|g3 [|g4 tail]]]]; trivial.
  destruct (N.eqb_spec x (ch "u")); [contradiction|reflexivity].
Qed.

(** A high surrogate, and after it the escape of a code point [e]: the
    two are joined exactly when [e] is a low surrogate. *)
Lemma scanstring_high_u c e tail :
  c < 65536 -> e < 65536 -> is_high_surrogate c = true ->
  scanstring (u_escape c ++ u_escape e ++ tail)
  = if is_low_surrogate e
    then prepend (join_surrogates c e) (scanstring tail)
    else prepend c (scanstring (u_escape e ++ tail)).
Proof.
  intros Hc He Hh.
  destruct (decode_hex4_hex4 c (u_escape e ++ tail) Hc)
    as (h1 & h2 & h3 & h4 & E & D).
  destruct (decode_hex4_hex4 e tail He) as (g1 & g2 & g3 & g4 & E' & D').
  unfold u_escape at 1. cbn [app]. rewrite E, scanstring_u, D, Hh.
  unfold u_escape. cbn [app]. rewrite E'.
  change (backslash =? backslash) with true.
  change (ch "u" =? ch "u") with true. cbn match. rewrite D'.
  reflexivity.
Qed.

(** The four shapes of an escaped character. *)
Lemma escape_char_cases c :
  c < 1114112 ->
  (escape_char c = [c] /\ c <> quote /\ c <> backslash /\ 32 <= c <= 126)
  \/ (exists x, escape_char c = [backslash; x] /\ unescape x = Some c
                 /\ x <> ch "u" /\ c < 128)
  \/ (escape_char c = u_escape c /\ c < 65536)
  \/ (65536 <= c
       /\ exists s1 s2,
            escape_char c = u_escape s1 ++ u_escape s2
            /\ is_high_surrogate s1 = true /\ is_low_surrogate s2 = true
            /\ join_surrogates s1 s2 = c).
Proof.
  intros Hc. unfold escape_char.
  destruct ((c =? backslash) || (c =? quote) || (c <? 32) || (126 <? c)) eqn:E.
  - right. unfold replace.
    destruct (N.eqb_spec c backslash) as [->|_];
      [left; exists backslash; repeat split; discriminate|].
    destruct (N.eqb_spec c quote) as [->|_];
      [left; exists quote; repeat split; discriminate|].
    destruct (N.eqb_spec c 8) as [->|_];
      [left; exists (ch "b"); repeat split; discriminate|].
    destruct (N.eqb_spec c 12) as [->|_];
      [left; exists (ch "f"); repeat split; discriminate|].
    destruct (N.eqb_spec c 10) as [->|_];
      [left; exists (ch "n"); repeat split; discriminate|].
    destruct (N.eqb_spec c 13) as [->|_];
      [left; exists (ch "r"); repeat split; discriminate|].
    destruct (N.eqb_spec c 9) as [->|_];
      [left; exists (ch "t"); repeat split; discriminate|].
    right. destruct (N.ltb_spec c 65536) as [Hlt|Hge]; [left; now split|].
    right. split; [exact Hge|].
    destruct (surrogate_halves c (conj Hge Hc)) as (E1 & E2 & Hq).
    cbv zeta in E1, E2, Hq. rewrite E1, E2.
    pose proof (N.mod_lt (c - 65536) 1024 ltac:(discriminate)) as Hr.
    pose proof (N.div_mod (c - 65536) 1024 ltac:(discriminate)) as Hdm.
    eexists _, _. split; [reflexivity|].
    revert Hq Hr Hdm.
    generalize ((c - 65536) / 1024), ((c - 65536) mod 1024). intros q r Hq Hr Hdm.
    assert (H1 : is_high_surrogate (55296 + q) = true)
      by (apply high_surrogate_range; lia).
    assert (H2 : is_low_surrogate (56320 + r) = true)
      by (apply low_surrogate_range; lia).
    repeat split; trivial.
    rewrite join_surrogates_value by assumption. lia.
  - left. rewrite !orb_false_iff in E. destruct E as (((E1 & E2) & E3) & E4).
    apply N.eqb_neq in E1, E2. apply N.ltb_ge in E3, E4. repeat split; trivial.
Qed.

Lemma join_pairs_cons c s :
  is_high_surrogate c = false -> join_pairs (c :: s) = c :: join_pairs s.
Proof.
  intros H. destruct s as [|d s]; [reflexivity|].
  cbn [join_pairs]. now rewrite H.
Qed.

Lemma join_pairs_cons_not_low c d s :
  is_low_surrogate d = false ->
  join_pairs (c :: d :: s) = c :: join_pairs (d :: s).
Proof.
  intros H. cbn [join_pairs]. rewrite H, andb_false_r. reflexivity.
Qed.

Lemma not_high c : c < 55296 -> is_high_surrogate c = false.
Proof.
  intros H. unfold is_high_surrogate.
  destruct (N.leb_spec 55296 c); [lia|reflexivity].
Qed.

Lemma not_low c : c < 56320 -> is_low_surrogate c = false.
Proof.
  intros H. unfold is_low_surrogate.
  destruct (N.leb_spec 56320 c); [lia|reflexivity].
Qed.

Lemma astral_not_surrogate c :
  65536 <= c -> is_high_surrogate c = false /\ is_low_surrogate c = false.
Proof.
  intros H. unfold is_high_surrogate, is_low_surrogate.
  destruct (N.leb_spec c 56319), (N.leb_spec c 57343); try lia;
    now rewrite !andb_false_r.
Qed.

(** What the scanner reads from an escaped string and its closing quote. *)
Lemma scanstring_escape_step rest s :
  is_str s ->
  scanstring (escape s ++ quote :: rest) = Some (join_pairs s, rest)
  /\ forall c, c < 1114112 ->
       scanstring (escape (c :: s) ++ quote :: rest)
       = Some (join_pairs (c :: s), rest).
Proof.
  induction s as [|d s IH]; intros Hs.
  - split; [reflexivity|]. intros c Hc. cbn [escape flat_map app join_pairs].
    rewrite app_nil_r.
    destruct (escape_char_cases c Hc)
      as [(E & Hq & Hb & Hr)|[(x & E & Hx & Hu & _)|[(E & Hlt)|(Hge & s1 & s2 & E & H1 & H2 & <-)]]];
      rewrite E.
    + cbn [app]. rewrite scanstring_plain by (trivial; lia). reflexivity.
    + cbn [app]. rewrite (scanstring_short x c) by trivial. reflexivity.
    + rewrite scanstring_high_end by (trivial; discriminate). reflexivity.
    + rewrite <- app_assoc.
      apply high_surrogate_range in H1 as R1. apply low_surrogate_range in H2 as R2.
      rewrite scanstring_high_u, H2 by (trivial; lia). reflexivity.
  - inversion Hs as [|? ? Hd Hs']; subst.
    destruct (IH Hs') as [IH0 IH1]. specialize (IH1 d Hd).
    split; [exact IH1|]. intros c Hc.
    change (escape (c :: d :: s)) with (escape_char c ++ escape (d :: s)).
    rewrite <- app_assoc.
    destruct (escape_char_cases c Hc)
      as [(E & Hq & Hb & Hr)|[(x & E & Hx & Hu & Hlt)|[(E & Hlt)|(Hge & s1 & s2 & E & H1 & H2 & <-)]]];
      rewrite E.
    + cbn [app]. rewrite scanstring_plain, IH1 by (trivial; lia).
      rewrite (join_pairs_cons c) by (apply not_high; lia). reflexivity.
    + cbn [app]. rewrite (scanstring_short x c), IH1 by trivial.
      rewrite (join_pairs_cons c) by (apply not_high; lia). reflexivity.
    + destruct (is_high_surrogate c) eqn:Hh.
      2:{ rewrite scanstring_bmp, IH1 by trivial.
          now rewrite (join_pairs_cons c). }
      change (escape (d :: s)) with (escape_char d ++ escape s).
      rewrite <- (app_assoc (escape_char d)).
      destruct (escape_char_cases d Hd)
        as [(E' & Hq' & Hb' & Hr')|[(x' & E' & Hx' & Hu' & Hlt')|[(E' & Hlt')|(Hge' & t1 & t2 & E' & T1 & T2 & J)]]].
      * rewrite scanstring_high_end by (trivial; rewrite E'; exact Hb').
        rewrite (app_assoc (escape_char d)).
        change (escape_char d ++ escape s) with (escape (d :: s)).
        rewrite IH1, (join_pairs_cons_not_low c d) by (apply not_low; lia).
        reflexivity.
      * rewrite E'. cbn [app]. rewrite scanstring_high_short by trivial.
        change (backslash :: x' :: escape s ++ quote :: rest)
          with ([backslash; x'] ++ escape s ++ quote :: rest).
        rewrite <- E', (app_assoc (escape_char d)).
        change (escape_char d ++ escape s) with (escape (d :: s)).
        rewrite IH1, (join_pairs_cons_not_low c d) by (apply not_low; lia).
        reflexivity.
      * rewrite E', scanstring_high_u by trivial.
        destruct (is_low_surrogate d) eqn:Hl.
        -- rewrite IH0. cbn [join_pairs]. rewrite Hh, Hl. reflexivity.
        -- rewrite <- E', (app_assoc (escape_char d)).
           change (escape_char d ++ escape s) with (escape (d :: s)).
           rewrite IH1, (join_pairs_cons_not_low c d) by trivial. reflexivity.
      * rewrite E', <- (app_assoc (u_escape t1)).
        apply high_surrogate_range in T1 as R1.
        rewrite scanstring_high_u by (trivial; lia).
        rewrite (not_low t1) by lia.
        rewrite (app_assoc (u_escape t1)), <- E', (app_assoc (escape_char d)).
        change (escape_char d ++ escape s) with (escape (d :: s)).
        rewrite IH1.
        rewrite (join_pairs_cons_not_low c d) by (apply astral_not_surrogate; exact Hge').
        reflexivity.
    + rewrite <- app_assoc.
      apply high_surrogate_range in H1 as R1. apply low_surrogate_range in H2 as R2.
      rewrite scanstring_high_u, H2, IH1 by (trivial; lia).
      rewrite (join_pairs_cons (join_surrogates s1 s2)) by (apply astral_not_surrogate; exact Hge).
      reflexivity.
Qed.

Lemma scanstring_escape s rest :
  is_str s ->
  scanstring (escape s ++ quote :: rest) = Some (join_pairs s, rest).
Proof. intros Hs. now apply scanstring_escape_step. Qed.

(** *** Joined surrogate pairs *)

Lemma escape_char_u c : 127 <= c < 65536 -> escape_char c = u_escape c.
Proof.
  intros Hc. unfold escape_char.
  destruct (N.ltb_spec 126 c) as [_|H]; [|lia].
  rewrite !orb_true_r. unfold replace.
  repeat match goal with
         | |- context [?a =? ?b] =>
             destruct (N.eqb_spec a b) as [E|_];
             [exfalso; revert E Hc; clear; unfold backslash, quote; lia|]
         end.
  destruct (N.ltb_spec c 65536); [reflexivity|lia].
Qed.

Lemma escape_char_astral c :
  65536 <= c < 1114112 ->
  escape_char c = u_escape (55296 + (c - 65536) / 1024)
                    ++ u_escape (56320 + (c - 65536) mod 1024).
Proof.
  intros Hc. unfold escape_char.
  destruct (N.ltb_spec 126 c) as [_|H]; [|lia].
  rewrite !orb_true_r. unfold replace.
  repeat match goal with
         | |- context [?a =? ?b] =>
             destruct (N.eqb_spec a b) as [E|_];
             [exfalso; revert E Hc; clear; unfold backslash, quote; lia|]
         end.
  destruct (N.ltb_spec c 65536); [lia|].
  destruct (surrogate_halves c Hc) as (E1 & E2 & _). cbv zeta in E1, E2.
  now rewrite E1, E2.
Qed.

Lemma escape_char_join c d :
  is_high_surrogate c = true -> is_low_surrogate d = true ->
  escape_char (join_surrogates c d) = escape_char c ++ escape_char d.
Proof.
  intros Hc Hd. rewrite join_surrogates_value by assumption.
  apply high_surrogate_range in Hc. apply low_surrogate_range in Hd.
  rewrite (escape_char_u c), (escape_char_u d) by lia.
  rewrite escape_char_astral by lia.
  replace (65536 + (c - 55296) * 1024 + (d - 56320) - 65536)
    with ((c - 55296) * 1024 + (d - 56320)) by lia.
  rewrite N.div_add_l by discriminate.
  rewrite (N.add_comm ((c - 55296) * 1024)), N.Div0.mod_add.
  rewrite N.div_small, N.mod_small by lia.
  do 2 f_equal; f_equal; lia.
Qed.

Lemma join_pairs_step s :
  is_str s ->
  (escape (join_pairs s) = escape s /\ is_str (join_pairs s)
   /\ pair_free (join_pairs s))
  /\ forall c, c < 1114112 ->
       escape (join_pairs (c :: s)) = escape (c :: s)
       /\ is_str (join_pairs (c :: s)) /\ pair_free (join_pairs (c :: s))
       /\ (is_low_surrogate c = false ->
           match join_pairs (c :: s) with
           | [] => True
           | e :: _ => is_low_surrogate e = false
           end).
Proof.
  induction s as [|d s IH]; intros Hs.
  - split; [repeat split; constructor|].
    intros c Hc. cbn [join_pairs pair_free].
    refine (conj eq_refl (conj _ (conj (conj I I) (fun H => H)))).
    now apply Forall_cons.
  - inversion Hs as [|? ? Hd Hs']; subst.
    destruct (IH Hs') as [(E0 & S0 & F0) IH1].
    destruct (IH1 d Hd) as (E1 & S1 & F1 & L1).
    split; [now repeat split|]. intros c Hc.
    change (join_pairs (c :: d :: s))
      with (if is_high_surrogate c && is_low_surrogate d
            then join_surrogates c d :: join_pairs s
            else c :: join_pairs (d :: s)).
    destruct (is_high_surrogate c) eqn:Hh, (is_low_surrogate d) eqn:Hl;
      cbn [andb].
    1:{ change (escape (?x :: ?l)) with (escape_char x ++ escape l).
        rewrite escape_char_join, E0, <- app_assoc by assumption.
        assert (Hj : 65536 <= join_surrogates c d < 1114112).
        { rewrite join_surrogates_value by assumption.
          apply high_surrogate_range in Hh. apply low_surrogate_range in Hl.
          lia. }
        destruct (astral_not_surrogate _ (proj1 Hj)) as [Jh Jl].
        refine (conj eq_refl (conj _ (conj _ (fun _ => Jl)))).
        - apply Forall_cons; [apply Hj|exact S0].
        - cbn [pair_free]. split; [|exact F0].
          destruct (join_pairs s); [exact I|]. now rewrite Jh. }
    all: change (escape (?x :: ?l)) with (escape_char x ++ escape l);
      rewrite E1;
      refine (conj eq_refl (conj _ (conj _ (fun H => H))));
      [now apply Forall_cons|];
      cbn [pair_free]; (split; [|exact F1]).
    + specialize (L1 eq_refl). destruct (join_pairs (d :: s)); [exact I|].
      rewrite L1. apply andb_false_r.
    + destruct (join_pairs (d :: s)); [exact I|]. now rewrite Hh.
    + destruct (join_pairs (d :: s)); [exact I|]. now rewrite Hh.
Qed.

Lemma escape_join_pairs s : is_str s -> escape (join_pairs s) = escape s.
Proof. intros Hs. now apply join_pairs_step. Qed.

Lemma is_str_join_pairs s : is_str s -> is_str (join_pairs s).
Proof. intros Hs. now apply join_pairs_step. Qed.

Lemma pair_free_join_pairs s : is_str s -> pair_free (join_pairs s).
Proof. intros Hs. now apply join_pairs_step. Qed.

Lemma join_pairs_pair_free s : pair_free s -> join_pairs s = s.
Proof.
  induction s as [|c s IH]; [reflexivity|].
  destruct s as [|d s]; [reflexivity|].
  intros [Hcd Hs]. cbn [join_pairs]. rewrite Hcd. f_equal. now apply IH.
Qed.

Lemma utf8_decoded_is_str s : utf8_decoded s -> is_str s.
Proof. apply Forall_impl. now intros c (H & _). Qed.

Lemma utf8_decoded_pair_free s : utf8_decoded s -> pair_free s.
Proof.
  induction 1 as [|c s (_ & Hh & _) Hs IH]; [exact I|].
  cbn [pair_free]. split; [|exact IH].
  destruct s; [exact I|]. now rewrite Hh.
Qed.

(** *** Integers *)

Lemma nzhead_not_D0 u v : Decimal.nzhead u <> Decimal.D0 v.
Proof. induction u; cbn; trivial; discriminate. Qed.

(** The decimal digits of a positive number do not start with 0. *)
Lemma to_uint_head p :
  match Pos.to_uint p with
  | Decimal.Nil | Decimal.D0 _ => False
  | _ => True
  end.
Proof.
  assert (Hn : Decimal.unorm (Pos.to_uint p) = Pos.to_uint p).
  { rewrite <- DecimalPos.Unsigned.to_of, DecimalPos.Unsigned.of_to.
    reflexivity. }
  pose proof (DecimalPos.Unsigned.to_uint_nonzero p) as Hz.
  pose proof (DecimalPos.Unsigned.to_uint_nonnil p) as Hnil.
  destruct (Pos.to_uint p) as [|u| | | | | | | | |]; trivial;
    [now apply Hnil|].
  rewrite DecimalFacts.unorm_D0 in Hn. unfold Decimal.unorm in Hn.
  destruct (Decimal.nzhead u) eqn:E; try discriminate.
  - injection Hn as <-. now apply Hz.
  - now apply nzhead_not_D0 in E.
Qed.

Lemma scan_digits_uint_chars u rest :
  not_digit rest -> scan_digits (uint_chars u ++ rest) = (u, rest).
Proof.
  intros Hr. induction u; cbn [uint_chars app];
    try (cbn [scan_digits]; rewrite IHu; reflexivity).
  destruct rest as [|c rest]; [reflexivity|].
  cbn [scan_digits]. cbn in Hr. now rewrite Hr.
Qed.

Lemma delimited_not_digit rest :
  delimited rest -> not_digit rest /\ starts_float_part rest = false.
Proof.
  destruct rest as [|c rest]; [now split|].
  intros [->| ->]; now split.
Qed.

Lemma scan_natural_zero rest :
  scan_natural (uint_chars Decimal.zero ++ rest) = Some (Decimal.zero, rest).
Proof. reflexivity. Qed.

Lemma scan_natural_positive p rest :
  not_digit rest ->
  scan_natural (uint_chars (Pos.to_uint p) ++ rest) = Some (Pos.to_uint p, rest).
Proof.
  intros Hr. pose proof (to_uint_head p) as Hh.
  destruct (Pos.to_uint p) as [|u|u|u|u|u|u|u|u|u|u]; try contradiction;
    cbn [uint_chars app]; unfold scan_natural;
    match goal with
    | |- context [digit_value (digit_char ?k)] =>
        change (digit_value (digit_char k)) with (Some k)
    end; cbv iota; rewrite scan_digits_uint_chars by exact Hr; reflexivity.
Qed.

(** The first character of a written integer is a digit or a minus
    sign. *)
Lemma int_repr_head z :
  exists c tl, int_repr z = c :: tl /\ (c = ch "-" \/ ch "0" <= c <= ch "9").
Proof.
  unfold int_repr. destruct z as [|p|p]; cbn [Z.to_int].
  - eexists _, _. split; [reflexivity|]. right. cbv. split; discriminate.
  - pose proof (to_uint_head p) as Hh.
    destruct (Pos.to_uint p); try contradiction; cbn [uint_chars];
      eexists _, _; (split; [reflexivity|]); right; cbv; split; discriminate.
  - eexists _, _. split; [reflexivity|]. now left.
Qed.

Lemma scan_number_int_repr z rest :
  delimited rest -> scan_number (int_repr z ++ rest) = Some (z, rest).
Proof.
  intros Hd. destruct (delimited_not_digit rest Hd) as [Hn Hf].
  unfold int_repr. destruct z as [|p|p]; cbn [Z.to_int].
  - unfold scan_number. cbn [uint_chars app].
    change (digit_char 0 =? ch "-") with false. cbv iota.
    change (scan_natural (digit_char 0 :: rest)) with (Some (Decimal.zero, rest)).
    cbv iota. now rewrite Hf.
  - unfold scan_number.
    pose proof (to_uint_head p) as Hh.
    pose proof (scan_natural_positive p rest Hn) as Hs.
    pose proof (DecimalZ.of_to (Z.pos p)) as Hz. cbn [Z.to_int] in Hz.
    destruct (Pos.to_uint p) as [|u|u|u|u|u|u|u|u|u|u]; try contradiction;
      cbn [uint_chars app] in *;
      match goal with
      | |- context [digit_char ?k =? ch "-"] =>
          change (digit_char k =? ch "-") with false
      end; cbv iota; rewrite Hs, Hf, Hz; reflexivity.
  - unfold scan_number. cbn [app].
    change (ch "-" =? ch "-") with true. cbv iota.
    rewrite (scan_natural_positive p rest Hn), Hf.
    pose proof (DecimalZ.of_to (Z.neg p)) as Hz. cbn [Z.to_int] in Hz.
    now rewrite Hz.
Qed.

(** *** Whitespace and the shape of the output *)

Lemma skip_whitespace_blank ws s :
  blank ws -> skip_whitespace (ws ++ s) = skip_whitespace s.
Proof.
  induction 1 as [|c ws Hc _ IH]; [reflexivity|].
  cbn [app skip_whitespace]. now rewrite Hc.
Qed.

Lemma skip_whitespace_head c s :
  is_whitespace c = false -> skip_whitespace (c :: s) = c :: s.
Proof. intros H. cbn [skip_whitespace]. now rewrite H. Qed.

Lemma blank_newline_indent indent level :
  blank indent -> blank (newline_indent indent level).
Proof.
  intros H. unfold newline_indent. constructor; [reflexivity|].
  induction level as [|n IH]; [constructor|].
  cbn [repeat List.concat]. apply Forall_app. now split.
Qed.

Lemma blank_spaces n : blank (repeat (ch " ") n).
Proof. apply Forall_forall. intros c Hc. now apply repeat_spec in Hc as ->. Qed.

Lemma join_cons_app sep x xs (r : list N) :
  join sep (x :: xs) ++ r
  = x ++ match xs with
         | [] => r
         | _ :: _ => sep ++ join sep xs ++ r
         end.
Proof.
  destruct xs as [|y xs]; [reflexivity|].
  cbn [join]. now rewrite <- !app_assoc.
Qed.

(** Every value is written with a first character, which is neither
    whitespace nor a closing bracket. *)
Lemma iterencode_head indent level v :
  exists c tl, iterencode indent level v = c :: tl
               /\ is_whitespace c = false /\ c <> ch "]".
Proof.
  destruct v as [| [|] | z | s | [|x l] | [|kv d]];
    try (eexists _, _; split; [reflexivity|]; split; [reflexivity|discriminate]).
  destruct (int_repr_head z) as (c & tl & E & Hc).
  exists c, tl. split; [exact E|].
  destruct Hc as [->|Hc]; [split; [reflexivity|discriminate]|].
  change (ch "0") with 48 in Hc. change (ch "9") with 57 in Hc.
  unfold is_whitespace. split.
  - repeat match goal with
           | |- context [c =? ?k] => destruct (N.eqb_spec c k); [lia|]
           end.
    reflexivity.
  - change (ch "]") with 93. lia.
Qed.

Lemma skip_whitespace_value indent level v r :
  skip_whitespace (iterencode indent level v ++ r) = iterencode indent level v ++ r.
Proof.
  destruct (iterencode_head indent level v) as (c & tl & -> & Hc & _).
  now apply skip_whitespace_head.
Qed.

(** *** Dictionaries *)

Lemma pystr_eqb_eq a b : pystr_eqb a b = true <-> a = b.
Proof. unfold pystr_eqb. destruct (list_eq_dec N.eq_dec a b); split; congruence. Qed.

Lemma dict_set_fresh d key v :
  ~ In key (map fst d) -> dict_set d key v = d ++ [(key, v)].
Proof.
  induction d as [|[k x] d IH]; [reflexivity|].
  cbn [map fst In dict_set app]. intros H.
  destruct (pystr_eqb k key) eqn:E.
  - apply pystr_eqb_eq in E. tauto.
  - rewrite IH by tauto. reflexivity.
Qed.

Lemma dict_of_pairs_from acc d :
  NoDup (map fst (acc ++ d)) ->
  fold_left (fun d kv => dict_set d (fst kv) (snd kv)) d acc = acc ++ d.
Proof.
  revert acc. induction d as [|[k x] d IH]; intros acc H.
  - now rewrite app_nil_r.
  - cbn [fold_left fst snd]. rewrite dict_set_fresh.
    + rewrite IH; rewrite <- app_assoc; [reflexivity|exact H].
    + rewrite map_app in H. cbn [map fst] in H.
      apply NoDup_remove_2 in H. rewrite in_app_iff in H. tauto.
Qed.

Lemma dict_of_pairs_distinct d : NoDup (map fst d) -> dict_of_pairs d = d.
Proof. intros H. unfold dict_of_pairs. now rewrite dict_of_pairs_from. Qed.

(** *** The scanner on the encoder's output *)

Lemma iterencode_list_app indent level x l rest :
  iterencode indent level (VList (x :: l)) ++ rest
  = ch "[" :: newline_indent indent (S level)
      ++ (join (ch "," :: newline_indent indent (S level))
            (map (iterencode indent (S level)) (x :: l))
          ++ newline_indent indent level ++ ch "]" :: rest).
Proof.
  change (iterencode indent level (VList (x :: l)))
    with (ch "[" :: newline_indent indent (S level)
            ++ join (ch "," :: newline_indent indent (S level))
                 (map (iterencode indent (S level)) (x :: l))
            ++ newline_indent indent level ++ [ch "]"]).
  cbn [app]. now rewrite <- !app_assoc.
Qed.

Lemma iterencode_dict_app indent level kv d rest :
  iterencode indent level (VDict (kv :: d)) ++ rest
  = ch "{" :: newline_indent indent (S level)
      ++ (join (ch "," :: newline_indent indent (S level))
            (map (encode_item indent (S level)) (kv :: d))
          ++ newline_indent indent level ++ ch "}" :: rest).
Proof.
  change (iterencode indent level (VDict (kv :: d)))
    with (ch "{" :: newline_indent indent (S level)
            ++ join (ch "," :: newline_indent indent (S level))
                 (map (encode_item indent (S level)) (kv :: d))
            ++ newline_indent indent level ++ [ch "}"]).
  cbn [app]. now rewrite <- !app_assoc.
Qed.

Lemma scan_once_string fuel s1 :
  scan_once (S fuel) (quote :: s1)
  = match scanstring s1 with
    | Some (str, rest) => Some (VStr str, rest)
    | None => None
    end.
Proof. reflexivity. Qed.

Lemma scan_once_list fuel s1 :
  scan_once (S fuel) (ch "[" :: s1)
  = match skip_whitespace s1 with
    | [] => None
    | c2 :: s2 =>
        if c2 =? ch "]" then Some (VList [], s2)
        else match parse_values fuel (c2 :: s2) with
             | Some (values, rest) => Some (VList values, rest)
             | None => None
             end
    end.
Proof. reflexivity. Qed.

Lemma scan_once_dict fuel s1 :
  scan_once (S fuel) (ch "{" :: s1)
  = match skip_whitespace s1 with
    | [] => None
    | c2 :: s2 =>
        if c2 =? ch "}" then Some (VDict [], s2)
        else if c2 =? quote then
          match parse_pairs fuel s2 with
          | Some (pairs, rest) => Some (VDict (dict_of_pairs pairs), rest)
          | None => None
          end
        else None
    end.
Proof. reflexivity. Qed.

Lemma scan_once_number fuel c tl :
  c = ch "-" \/ ch "0" <= c <= ch "9" ->
  scan_once (S fuel) (c :: tl)
  = match scan_number (c :: tl) with
    | Some (z, rest) => Some (VInt z, rest)
    | None => None
    end.
Proof.
  intros Hc. cbn [scan_once].
  change (ch "0") with 48 in Hc. change (ch "9") with 57 in Hc.
  change (ch "-") with 45 in Hc.
  repeat match goal with
         | |- context [c =? ?k] =>
             destruct (N.eqb_spec c k) as [E|_];
             [exfalso; revert E Hc; clear; unfold quote;
              repeat match goal with
                     | |- context [ch ?a] =>
                         let v := eval cbv in (ch a) in change (ch a) with v
                     end; lia|]
         end.
  reflexivity.
Qed.

Lemma parse_values_step fuel s :
  parse_values (S fuel) s
  = match scan_once fuel s with
    | None => None
    | Some (v, s1) =>
        match skip_whitespace s1 with
        | [] => None
        | c :: s2 =>
            if c =? ch "]" then Some ([v], s2)
            else if c =? ch "," then
              match parse_values fuel (skip_whitespace s2) with
              | Some (values, rest) => Some (v :: values, rest)
              | None => None
              end
            else None
        end
    end.
Proof. reflexivity. Qed.

Lemma parse_pairs_step fuel s :
  parse_pairs (S fuel) s
  = match scanstring s with
    | None => None
    | Some (key, s1) =>
        match skip_whitespace s1 with
        | [] => None
        | c :: s2 =>
            if c =? ch ":" then
              match scan_once fuel (skip_whitespace s2) with
              | None => None
              | Some (v, s3) =>
                  match skip_whitespace s3 with
                  | [] => None
                  | c3 :: s4 =>
                      if c3 =? ch "}" then Some ([(key, v)], s4)
                      else if c3 =? ch "," then
                        match skip_whitespace s4 with
                        | [] => None
                        | c5 :: s5 =>
                            if c5 =? quote then
                              match parse_pairs fuel s5 with
                              | Some (pairs, rest) =>
                                  Some ((key, v) :: pairs, rest)
                              | None => None
                              end
                            else None
                        end
                      else None
                  end
              end
            else None
        end
    end.
Proof. reflexivity. Qed.

Section RoundTrip.
Variable indent : list N.
Hypothesis Hindent : blank indent.

Lemma join_values_head level sep x l r :
  exists c tl,
    join sep (map (iterencode indent level) (x :: l)) ++ r = c :: tl
    /\ is_whitespace c = false /\ c <> ch "]".
Proof.
  cbn [map]. rewrite join_cons_app.
  destruct (iterencode_head indent level x) as (c & tl & -> & Hc).
  now eexists _, _.
Qed.

Lemma delimited_newline_indent level r :
  delimited (newline_indent indent level ++ r).
Proof. now right. Qed.

Lemma scanner_round_trip fuel :
  (forall v level rest,
     wf_value v -> (size v <= fuel)%nat -> delimited rest ->
     scan_once fuel (iterencode indent level v ++ rest) = Some (v, rest))
  /\ (forall x l level rest,
        Forall wf_value (x :: l) ->
        (list_sum (map (fun y => S (size y)) (x :: l)) <= fuel)%nat ->
        parse_values fuel
          (join (ch "," :: newline_indent indent (S level))
             (map (iterencode indent (S level)) (x :: l))
           ++ newline_indent indent level ++ ch "]" :: rest)
        = Some (x :: l, rest))
  /\ (forall kv d level rest,
        Forall (fun kv => is_str (fst kv) /\ pair_free (fst kv)
                          /\ wf_value (snd kv)) (kv :: d) ->
        (list_sum (map (fun kv => match kv with (_, y) => S (size y) end)
                     (kv :: d)) <= fuel)%nat ->
        exists body,
          join (ch "," :: newline_indent indent (S level))
            (map (encode_item indent (S level)) (kv :: d))
          ++ newline_indent indent level ++ ch "}" :: rest
          = quote :: body
          /\ parse_pairs fuel body = Some (kv :: d, rest)).
Proof.
  induction fuel as [|f (IH1 & IH2 & IH3)].
  { split; [|split].
    - intros v level rest _ Hsize _. destruct v; cbn [size] in Hsize; lia.
    - intros x l level rest _ Hsize. cbn [map] in Hsize; change (list_sum (?a :: ?t)) with (a + list_sum t)%nat in Hsize. lia.
    - intros [k x] d level rest _ Hsize. cbn [map] in Hsize; change (list_sum (?a :: ?t)) with (a + list_sum t)%nat in Hsize. lia. }
  split; [|split].
  - intros v level rest Hwf Hsize Hd.
    destruct v as [| [|] | z | s | [|x l] | [|kv d]]; try reflexivity.
    + change (iterencode indent level (VInt z)) with (int_repr z).
      destruct (int_repr_head z) as (c & tl & E & Hc).
      pose proof (scan_number_int_repr z rest Hd) as Hn.
      rewrite E in *. cbn [app] in *.
      now rewrite scan_once_number, Hn.
    + inversion Hwf as [| | |? Hs Hp| |]; subst.
      change (iterencode indent level (VStr s)) with (quote :: escape s ++ [quote]).
      cbn [app]. rewrite <- app_assoc. cbn [app].
      rewrite scan_once_string, scanstring_escape by exact Hs.
      now rewrite join_pairs_pair_free.
    + inversion Hwf as [| | | |? Hl|]; subst.
      cbn [size] in Hsize.
      rewrite iterencode_list_app, scan_once_list.
      rewrite skip_whitespace_blank by now apply blank_newline_indent.
      destruct (join_values_head (S level)
                  (ch "," :: newline_indent indent (S level)) x l
                  (newline_indent indent level ++ ch "]" :: rest))
        as (c & tl & E & Hc & Hb).
      rewrite E, skip_whitespace_head by exact Hc.
      destruct (N.eqb_spec c (ch "]")); [contradiction|].
      rewrite <- E, IH2; trivial. lia.
    + inversion Hwf as [| | | | |? Hall Hnd]; subst.
      cbn [size] in Hsize.
      rewrite iterencode_dict_app, scan_once_dict.
      rewrite skip_whitespace_blank by now apply blank_newline_indent.
      destruct (IH3 kv d level rest Hall) as (body & E & Hp); [lia|].
      rewrite E, skip_whitespace_head by reflexivity.
      change (quote =? ch "}") with false. change (quote =? quote) with true.
      cbv iota. rewrite Hp. now rewrite dict_of_pairs_distinct.
  - intros x l level rest Hwf Hsize.
    inversion Hwf as [|? ? Hx Hl]; subst.
    cbn [map] in Hsize; change (list_sum (?a :: ?t)) with (a + list_sum t)%nat in Hsize.
    rewrite parse_values_step. cbn [map]. rewrite join_cons_app.
    destruct l as [|y l].
    + cbn [map]. rewrite IH1; [|exact Hx|lia|apply delimited_newline_indent].
      rewrite skip_whitespace_blank by now apply blank_newline_indent.
      reflexivity.
    + change (map (iterencode indent (S level)) (y :: l))
        with (iterencode indent (S level) y
                :: map (iterencode indent (S level)) l) at 1.
      cbv iota.
      change (iterencode indent (S level) y
                :: map (iterencode indent (S level)) l)
        with (map (iterencode indent (S level)) (y :: l)).
      rewrite IH1; [|exact Hx|lia|now left].
      cbn [app]. rewrite skip_whitespace_head by reflexivity.
      change (ch "," =? ch "]") with false. change (ch "," =? ch ",") with true.
      cbv iota.
      rewrite skip_whitespace_blank by now apply blank_newline_indent.
      destruct (join_values_head (S level)
                  (ch "," :: newline_indent indent (S level)) y l
                  (newline_indent indent level ++ ch "]" :: rest))
        as (c & tl & E & Hc & _).
      rewrite E, skip_whitespace_head, <- E by exact Hc.
      rewrite IH2; [reflexivity|exact Hl|lia].
  - intros [k x] d level rest Hwf Hsize.
    inversion Hwf as [|? ? (Hk & Hp & Hx) Hd]; subst. cbn [fst snd] in *.
    cbn [map] in Hsize; change (list_sum (?a :: ?t)) with (a + list_sum t)%nat in Hsize.
    cbn [map]. rewrite join_cons_app.
    unfold encode_item at 1, encode_basestring_ascii.
    cbn [app]. rewrite <- !app_assoc. cbn [app str_of map list_ascii_of_string].
    eexists. split; [reflexivity|].
    rewrite parse_pairs_step, scanstring_escape by exact Hk.
    rewrite join_pairs_pair_free by exact Hp.
    rewrite skip_whitespace_head by reflexivity.
    change (N_of_ascii ":" =? ch ":") with true. cbv iota.
    change (skip_whitespace (N_of_ascii " " :: ?t)) with (skip_whitespace t).
    rewrite skip_whitespace_value.
    destruct d as [|kv d].
    + cbn [map]. rewrite IH1; [|exact Hx|lia|apply delimited_newline_indent].
      rewrite skip_whitespace_blank by now apply blank_newline_indent.
      reflexivity.
    + change (map (encode_item indent (S level)) (kv :: d))
        with (encode_item indent (S level) kv
                :: map (encode_item indent (S level)) d) at 1.
      cbv iota.
      change (encode_item indent (S level) kv
                :: map (encode_item indent (S level)) d)
        with (map (encode_item indent (S level)) (kv :: d)).
      rewrite IH1; [|exact Hx|lia|now left].
      cbn [app]. rewrite skip_whitespace_head by reflexivity.
      change (ch "," =? ch "}") with false. change (ch "," =? ch ",") with true.
      cbv iota.
      rewrite skip_whitespace_blank by now apply blank_newline_indent.
      destruct (IH3 kv d level rest Hd) as (body & E & Hb).
      { lia. }
      rewrite E, skip_whitespace_head by reflexivity.
      change (quote =? quote) with true. cbv iota. now rewrite Hb.
Qed.

(** The fuel [loads] takes is enough. *)

Lemma value_ind' (P : value -> Prop) :
  P VNone -> (forall b, P (VBool b)) -> (forall z, P (VInt z)) ->
  (forall s, P (VStr s)) ->
  (forall l, Forall P l -> P (VList l)) ->
  (forall d, Forall (fun kv => P (snd kv)) d -> P (VDict d)) ->
  forall v, P v.
Proof.
  intros HN HB HI HS HL HD. fix IH 1.
  intros [| b | z | s | l | d].
  - exact HN.
  - apply HB.
  - apply HI.
  - apply HS.
  - apply HL. induction l as [|x l IHl]; constructor; [apply IH|exact IHl].
  - apply HD. induction d as [|[k x] d IHd]; constructor; [apply IH|exact IHd].
Qed.

Lemma join_length_bound {A} (measure : A -> nat) (enc : A -> list N) sep l :
  (1 <= List.length sep)%nat ->
  Forall (fun x => (measure x <= List.length (enc x))%nat) l ->
  (list_sum (map (fun x => S (measure x)) l)
   <= List.length (join sep (map enc l)) + 1)%nat.
Proof.
  intros Hsep. induction 1 as [|x l Hx Hl IH]; [cbn; lia|].
  cbn [map]. change (list_sum (?a :: ?t)) with (a + list_sum t)%nat.
  destruct l as [|y l].
  - cbn [map join list_sum fold_right]. lia.
  - change (join sep (enc x :: map enc (y :: l)))
      with (enc x ++ sep ++ join sep (map enc (y :: l))).
    rewrite !length_app. lia.
Qed.

Lemma size_le_length v :
  forall level, (size v <= List.length (iterencode indent level v))%nat.
Proof.
  induction v as [| [|] | z | s | l IH | d IH] using value_ind'; intros level;
    try (cbn; lia).
  - destruct (int_repr_head z) as (c & tl & E & _).
    change (iterencode indent level (VInt z)) with (int_repr z).
    rewrite E. cbn. lia.
  - destruct l as [|x l]; [cbn; lia|].
    pose proof (iterencode_list_app indent level x l []) as E.
    rewrite app_nil_r in E. rewrite E. cbn [size].
    pose proof (join_length_bound size (iterencode indent (S level))
                  (ch "," :: newline_indent indent (S level)) (x :: l)) as Hb.
    cbn [List.length] in *. rewrite !length_app.
    assert (Hall : Forall (fun y => (size y
                    <= List.length (iterencode indent (S level) y))%nat) (x :: l)).
    { eapply Forall_impl; [|exact IH]. intros y Hy. apply Hy. }
    specialize (Hb ltac:(lia) Hall). cbn [List.length]. lia.
  - destruct d as [|kv d]; [cbn; lia|].
    pose proof (iterencode_dict_app indent level kv d []) as E.
    rewrite app_nil_r in E. rewrite E. cbn [size].
    pose proof (join_length_bound (fun kv => size (snd kv))
                  (encode_item indent (S level))
                  (ch "," :: newline_indent indent (S level)) (kv :: d)) as Hb.
    cbn [List.length] in *. rewrite !length_app.
    assert (Hall : Forall (fun kv => (size (snd kv)
                    <= List.length (encode_item indent (S level) kv))%nat)
                     (kv :: d)).
    { eapply Forall_impl; [|exact IH]. intros [k y] Hy. cbn [snd] in *.
      unfold encode_item. rewrite !length_app. specialize (Hy (S level)). lia. }
    specialize (Hb ltac:(lia) Hall).
    rewrite (map_ext (fun kv => match kv with (_, y) => S (size y) end)
               (fun kv => S (size (snd kv)))) by (now intros [k y]).
    cbn [List.length]. lia.
Qed.

End RoundTrip.

(** Reading back what was written gives the value that was written. *)
Lemma loads_dumps v n : wf_value v -> loads (dumps v n) = Some v.
Proof.
  intros Hwf. unfold loads, dumps.
  pose proof (blank_spaces n) as Hb.
  pose proof (skip_whitespace_value (repeat (ch " ") n) 0 v []) as Hs.
  rewrite app_nil_r in Hs. rewrite Hs.
  destruct (scanner_round_trip _ Hb
              (List.length (iterencode (repeat (ch " ") n) 0 v))) as (H1 & _).
  specialize (H1 v 0%nat [] Hwf (size_le_length _ v 0%nat) I).
  rewrite app_nil_r in H1. now rewrite H1.
Qed.

End JsonFacts.

(** ** The export *)

Section SaveFacts.
Import Json JsonFacts.

Lemma Forall_firstn {A} (P : A -> Prop) n l : Forall P l -> Forall P (firstn n l).
Proof.
  intros H. revert n. induction H; intros [|n]; cbn [firstn]; constructor; auto.
Qed.

Lemma Forall_skipn {A} (P : A -> Prop) n l : Forall P l -> Forall P (skipn n l).
Proof.
  intros H. revert n. induction H; intros [|n]; cbn [skipn]; auto.
Qed.

Lemma Forall_slice {A} (P : A -> Prop) (s : list A) a b :
  Forall P s -> Forall P (slice s a b).
Proof. intros H. unfold slice. now apply Forall_firstn, Forall_skipn. Qed.

Lemma pair_free_skipn n s : pair_free s -> pair_free (skipn n s).
Proof.
  revert s. induction n as [|n IH]; intros [|c s] H; trivial.
  apply IH. apply H.
Qed.

Lemma pair_free_firstn n s : pair_free s -> pair_free (firstn n s).
Proof.
  revert s. induction n as [|n IH]; intros [|c s] H; try exact I.
  cbn [firstn pair_free]. split; [|apply IH; apply H].
  destruct n as [|n], s as [|d s]; try exact I. apply H.
Qed.

Lemma pair_free_slice s a b : pair_free s -> pair_free (slice s a b).
Proof. intros H. unfold slice. now apply pair_free_firstn, pair_free_skipn. Qed.

(** Every annotation of a session lies inside the text and carries the
    slice of the text as its fragment. *)
Lemma AnnotationSet_inv text annotations :
  AnnotationSet text annotations ->
  Forall (fun a => span_in_text text a
                   /\ text_fragment a = slice text (start_pos a) (end_pos a))
    annotations.
Proof.
  induction 1 as [|anns s e l anns' msg _ IH Hadd]; [constructor|].
  unfold add_annotation in Hadd.
  destruct (Z.leb_spec 0 s), (Z.ltb_spec s e), (Z.leb_spec e (len text));
    cbn [andb] in Hadd; try discriminate.
  injection Hadd as <- _. apply Forall_app. split; [exact IH|].
  constructor; [|constructor]. cbn. unfold span_in_text. cbn. auto.
Qed.

Lemma key_ok (k : string) :
  Forall (fun c => (c < 128)%N) (str_of k) ->
  is_str (str_of k) /\ pair_free (str_of k).
Proof.
  generalize (str_of k). intros s H. split.
  - eapply Forall_impl; [|exact H]. cbn beta. intros; lia.
  - induction H as [|c s Hc Hs IH]; [exact I|].
    cbn [pair_free]. split; [|exact IH].
    destruct s; [exact I|]. rewrite not_high by lia. reflexivity.
Qed.

Ltac ascii_key := apply key_ok; repeat constructor.

Ltac distinct_keys :=
  repeat (apply NoDup_cons; [cbn [In map fst]; intuition discriminate|]);
  apply NoDup_nil.

Lemma wf_annotation_value a :
  is_str (label a) -> pair_free (label a) ->
  is_str (text_fragment a) -> pair_free (text_fragment a) ->
  wf_value (annotation_value a).
Proof.
  intros H1 H2 H3 H4. unfold annotation_value. constructor.
  - repeat (apply Forall_cons; [cbn [fst snd]|]); try apply Forall_nil;
      (split; [|split]); try (now ascii_key); now constructor.
  - cbn [map fst]. distinct_keys.
Qed.

Lemma wf_annotated_data text annotations :
  is_str text -> pair_free text ->
  Forall (fun a => is_str (label a) /\ pair_free (label a)
                   /\ is_str (text_fragment a) /\ pair_free (text_fragment a))
    annotations ->
  wf_value (annotated_data text annotations).
Proof.
  intros H1 H2 H. unfold annotated_data. constructor.
  - repeat (apply Forall_cons; [cbn [fst snd]|]); try apply Forall_nil;
      (split; [|split]); try (now ascii_key); constructor; trivial.
    apply Forall_map. eapply Forall_impl; [|exact H].
    intros a (? & ? & ? & ?). now apply wf_annotation_value.
  - cbn [map fst]. distinct_keys.
Qed.

(** Joining the surrogate pairs of the strings does not change what is
    written. *)
Lemma iterencode_join_annotation indent level a :
  is_str (label a) -> is_str (text_fragment a) ->
  iterencode indent level (annotation_value (join_annotation a))
  = iterencode indent level (annotation_value a).
Proof.
  intros Hl Hf. destruct a as [s e l f]. cbn [label text_fragment] in *.
  unfold annotation_value, join_annotation.
  cbn [start_pos end_pos label text_fragment iterencode map join].
  unfold encode_basestring_ascii.
  now rewrite !escape_join_pairs.
Qed.

Lemma iterencode_list_ext indent level l l' :
  map (iterencode indent (S level)) l = map (iterencode indent (S level)) l' ->
  iterencode indent level (VList l) = iterencode indent level (VList l').
Proof.
  intros E. destruct l as [|x l], l' as [|x' l']; try discriminate; trivial.
  pose proof (iterencode_list_app indent level x l []) as E1.
  pose proof (iterencode_list_app indent level x' l' []) as E2.
  rewrite app_nil_r in E1, E2. now rewrite E1, E2, E.
Qed.

Lemma dumps_join_pairs text annotations n :
  is_str text ->
  Forall (fun a => is_str (label a) /\ is_str (text_fragment a)) annotations ->
  dumps (annotated_data (join_pairs text) (map join_annotation annotations)) n
  = dumps (annotated_data text annotations) n.
Proof.
  intros Ht Ha. unfold dumps, annotated_data.
  set (indent := repeat (ch " ") n).
  assert (E : iterencode indent 1
                (VList (map annotation_value (map join_annotation annotations)))
              = iterencode indent 1 (VList (map annotation_value annotations))).
  { apply iterencode_list_ext. rewrite !map_map. apply map_ext_in. intros a Hin.
    rewrite Forall_forall in Ha. destruct (Ha a Hin).
    now apply iterencode_join_annotation. }
  match goal with
  | |- iterencode _ _ (VDict (?kv1 :: ?d1)) = iterencode _ _ (VDict (?kv2 :: ?d2)) =>
      pose proof (iterencode_dict_app indent 0 kv1 d1 []) as E1;
      pose proof (iterencode_dict_app indent 0 kv2 d2 []) as E2
  end.
  rewrite app_nil_r in E1, E2. rewrite E1, E2.
  cbn [map]. unfold encode_item. rewrite E.
  change (iterencode indent 1 (VStr ?t)) with (encode_basestring_ascii t).
  unfold encode_basestring_ascii. now rewrite escape_join_pairs.
Qed.

End SaveFacts.

(** The round trip for strings in which no high surrogate is directly
    followed by a low one. *)
Lemma save_annotations_round_trip_pair_free text annotations :
  Json.is_str text -> Json.pair_free text ->
  Forall (fun a => Json.is_str (label a) /\ Json.pair_free (label a))
    annotations ->
  AnnotationSet text annotations ->
  Json.loads (save_annotations text annotations)
  = Some (Json.VDict
            [(str_of "text", Json.VStr text);
             (str_of "annotations",
              Json.VList
                (map (fun a =>
                        Json.VDict
                          [(str_of "start_pos", Json.VInt (start_pos a));
                           (str_of "end_pos", Json.VInt (end_pos a));
                           (str_of "label", Json.VStr (label a));
                           (str_of "text_fragment",
                            Json.VStr (slice text (start_pos a) (end_pos a)))])
                   annotations))]).
Proof.
  intros Ht Hp Hl Hset. apply AnnotationSet_inv in Hset.
  unfold save_annotations. rewrite JsonFacts.loads_dumps.
  - unfold annotated_data. do 6 f_equal. apply map_ext_in. intros a Hin.
    rewrite Forall_forall in Hset. destruct (Hset a Hin) as [_ E].
    unfold annotation_value. now rewrite E.
  - apply wf_annotated_data; trivial.
    rewrite Forall_forall in *. intros a Hin.
    destruct (Hset a Hin) as [_ E]. destruct (Hl a Hin) as [H1 H2].
    rewrite E. repeat split; trivial.
    + now apply Forall_slice.
    + now apply pair_free_slice.
Qed.

(** C5: for a text as [main] reads it, that is UTF-8 decoded, and the
    annotations of a session on it (their labels UTF-8 decoded strings
    too), parsing what [save_annotations] returns gives an object whose
    ["text"] is the text and whose ["annotations"] lists the annotations
    in their order, each with the four fields [start_pos], [end_pos],
    [label], [text_fragment], the last one being
    [text[start_pos:end_pos]]. *)
Theorem save_annotations_round_trip text annotations :
  Json.utf8_decoded text ->
  Forall (fun a => Json.utf8_decoded (label a)) annotations ->
  AnnotationSet text annotations ->
  Json.loads (save_annotations text annotations)
  = Some (Json.VDict
            [(str_of "text", Json.VStr text);
             (str_of "annotations",
              Json.VList
                (map (fun a =>
                        Json.VDict
                          [(str_of "start_pos", Json.VInt (start_pos a));
                           (str_of "end_pos", Json.VInt (end_pos a));
                           (str_of "label", Json.VStr (label a));
                           (str_of "text_fragment",
                            Json.VStr (slice text (start_pos a) (end_pos a)))])
                   annotations))]).
Proof.
  intros Ht Hl Hset. apply save_annotations_round_trip_pair_free.
  - now apply JsonFacts.utf8_decoded_is_str.
  - now apply JsonFacts.utf8_decoded_pair_free.
  - eapply Forall_impl; [|exact Hl]. intros a Ha. split.
    + now apply JsonFacts.utf8_decoded_is_str.
    + now apply JsonFacts.utf8_decoded_pair_free.
  - exact Hset.
Qed.

(** C6: parsing what [save_annotations] returns and writing the parsed
    value again with the same indent gives the same string, code point
    for code point. *)
Theorem save_annotations_stable text annotations :
  Json.is_str text ->
  Forall (fun a => Json.is_str (label a)) annotations ->
  AnnotationSet text annotations ->
  exists v,
    Json.loads (save_annotations text annotations) = Some v
    /\ Json.dumps v 4 = save_annotations text annotations.
Proof.
  intros Ht Hl Hset. apply AnnotationSet_inv in Hset.
  assert (Hstr : Forall (fun a => Json.is_str (label a)
                                  /\ Json.is_str (text_fragment a)) annotations).
  { rewrite Forall_forall in *. intros a Hin. split; [now apply Hl|].
    destruct (Hset a Hin) as [_ ->]. now apply Forall_slice. }
  exists (annotated_data (Json.join_pairs text) (map join_annotation annotations)).
  unfold save_annotations.
  rewrite <- (dumps_join_pairs text annotations 4 Ht Hstr).
  split; [|reflexivity].
  apply JsonFacts.loads_dumps. apply wf_annotated_data.
  - now apply JsonFacts.is_str_join_pairs.
  - now apply JsonFacts.pair_free_join_pairs.
  - apply Forall_map. eapply Forall_impl; [|exact Hstr].
    intros a [H1 H2]. cbn [join_annotation label text_fragment].
    auto using JsonFacts.is_str_join_pairs, JsonFacts.pair_free_join_pairs.
Qed.


(** ** The properties on concrete inputs *)

Lemma sample_session : AnnotationSet sample_text sample_annotations.
Proof.
  eapply AnnotationSet_add with (start_pos := 14) (end_pos := 19)
                                (label := str_of "LOCATION");
    [eapply AnnotationSet_add with (start_pos := 0) (end_pos := 5)
                                   (label := str_of "PERSON");
     [apply AnnotationSet_empty | reflexivity]
    | reflexivity].
Qed.

Lemma sample_is_str : Json.is_str sample_text.
Proof. repeat (constructor; [reflexivity|]). constructor. Qed.

Lemma sample_pair_free : Json.pair_free sample_text.
Proof. vm_compute. repeat split. Qed.

Lemma sample_labels :
  Forall (fun a => Json.is_str (label a) /\ Json.pair_free (label a))
    sample_annotations.
Proof.
  repeat (constructor;
          [split; [repeat (constructor; [reflexivity|]); constructor
                  | vm_compute; repeat split]|]).
  constructor.
Qed.

Lemma paginate_text_complete_witness :
  0 < 3
  /\ exists pages,
      paginate_text (str_of "abcdefghij") 3 = Ok pages
      /\ len pages = ceil_div (len (str_of "abcdefghij")) 3
      /\ (len (str_of "abcdefghij") = 0 -> pages = [])
      /\ (forall i page, nth_error pages i = Some page ->
            page = slice (str_of "abcdefghij") (Z.of_nat i * 3) (Z.of_nat i * 3 + 3)
            /\ (Z.of_nat i < len pages - 1 -> len page = 3)
            /\ (Z.of_nat i = len pages - 1 ->
                len page = if len (str_of "abcdefghij") mod 3 =? 0 then 3
                           else len (str_of "abcdefghij") mod 3))
      /\ List.concat pages = str_of "abcdefghij".
Proof.
  split; [lia | apply (paginate_text_complete (str_of "abcdefghij") 3); lia].
Defined.

Lemma paginate_text_negative_size_witness :
  -3 < 0 /\ paginate_text (str_of "abcdefghij") (-3) = Ok [].
Proof.
  split; [lia | apply (paginate_text_negative_size (str_of "abcdefghij") (-3)); lia].
Defined.

(** The claim C4 fails on a negative page size: nothing is rejected. *)
Lemma paginate_text_negative_size_accepted :
  -1 <= 0 /\ paginate_text (str_of "abc") (-1) = Ok [].
Proof. split; [lia | reflexivity]. Qed.

Lemma paginate_text_failure_modes_witness :
  (exists pages, paginate_text (str_of "abc") 2 = Ok pages)
  /\ paginate_text (str_of "abc") 0
     = Raise (ValueError "range() arg 3 must not be zero")
  /\ paginate_text (str_of "abc") (-2) = Ok [].
Proof.
  split; [|split].
  - apply (proj1 (paginate_text_failure_modes (str_of "abc") 2)). lia.
  - apply (proj1 (proj2 (paginate_text_failure_modes (str_of "abc") 0))).
    reflexivity.
  - apply (proj2 (proj2 (paginate_text_failure_modes (str_of "abc") (-2)))). lia.
Defined.

Lemma add_annotation_validates_witness :
  add_annotation sample_text [] 0 5 (str_of "PERSON")
  = ([mkAnnotation 0 5 (str_of "PERSON") (str_of "Alice")],
     success "Annotation Added!")
  /\ add_annotation sample_text [] 5 3 (str_of "PERSON")
     = ([], error "Invalid annotation positions.").
Proof.
  split.
  - apply (proj1 (add_annotation_validates sample_text [] 0 5 (str_of "PERSON"))).
    vm_compute. repeat split; discriminate.
  - apply (proj2 (add_annotation_validates sample_text [] 5 3 (str_of "PERSON"))).
    vm_compute. intros (_ & H & _). discriminate.
Defined.

Lemma get_annotated_text_covers_witness :
  fragments_text (get_annotated_text sample_text sample_annotations)
  = sample_text.
Proof.
  apply (get_annotated_text_covers sample_text sample_annotations).
  - repeat (constructor; [vm_compute; repeat split; discriminate|]).
    constructor.
  - repeat constructor. vm_compute. discriminate.
Defined.

(** Outside UTF-8 decoded input: a string made of a surrogate pair,
    which decoding UTF-8 never gives, is read back as the one character
    the pair encodes. *)
Lemma save_annotations_surrogate_pair :
  AnnotationSet [55357; 56832]%N []
  /\ Json.loads (save_annotations [55357; 56832]%N [])
     = Some (Json.VDict [(str_of "text", Json.VStr [128512]%N);
                         (str_of "annotations", Json.VList [])])
  /\ Json.loads (save_annotations [55357; 56832]%N [])
     <> Some (Json.VDict [(str_of "text", Json.VStr [55357; 56832]%N);
                          (str_of "annotations", Json.VList [])]).
Proof.
  split; [constructor|]. split; [reflexivity|].
  vm_compute. discriminate.
Qed.

Lemma sample_utf8 : Json.utf8_decoded sample_text.
Proof. repeat (constructor; [repeat split; reflexivity|]). constructor. Qed.

Lemma sample_labels_utf8 :
  Forall (fun a => Json.utf8_decoded (label a)) sample_annotations.
Proof.
  repeat (constructor;
          [repeat (constructor; [repeat split; reflexivity|]); constructor|]).
  constructor.
Qed.

Lemma save_annotations_round_trip_witness :
  Json.loads (save_annotations sample_text sample_annotations)
  = Some (Json.VDict
            [(str_of "text", Json.VStr sample_text);
             (str_of "annotations",
              Json.VList
                [Json.VDict
                   [(str_of "start_pos", Json.VInt 0);
                    (str_of "end_pos", Json.VInt 5);
                    (str_of "label", Json.VStr (str_of "PERSON"));
                    (str_of "text_fragment", Json.VStr (str_of "Alice"))];
                 Json.VDict
                   [(str_of "start_pos", Json.VInt 14);
                    (str_of "end_pos", Json.VInt 19);
                    (str_of "label", Json.VStr (str_of "LOCATION"));
                    (str_of "text_fragment", Json.VStr (str_of "Paris"))]])]).
Proof.
  apply (save_annotations_round_trip sample_text sample_annotations).
  - exact sample_utf8.
  - exact sample_labels_utf8.
  - exact sample_session.
Defined.

Lemma save_annotations_stable_witness :
  exists v,
    Json.loads (save_annotations sample_text sample_annotations) = Some v
    /\ Json.dumps v 4 = save_annotations sample_text sample_annotations.
Proof.
  apply (save_annotations_stable sample_text sample_annotations).
  - exact sample_is_str.
  - eapply Forall_impl; [|exact sample_labels]. now intros a [H _].
  - exact sample_session.
Defined.

(** * Further properties *)

(** ** More on the span renderer *)

Lemma sweep_step_shape text out c a :
  sweep_step text (out, c) a
  = ((if c <? start_pos a
      then out ++ [Plain (slice text c (start_pos a))] else out)
       ++ [highlight_of text a],
     end_pos a).
Proof. reflexivity. Qed.

Lemma sweep_highlights text l :
  forall out c,
    filter is_highlight (fst (fold_left (sweep_step text) l (out, c)))
    = filter is_highlight out ++ map (highlight_of text) l.
Proof.
  induction l as [|a l IH]; intros out c.
  - cbn [fold_left fst map]. now rewrite app_nil_r.
  - cbn [fold_left]. rewrite sweep_step_shape, IH.
    destruct (c <? start_pos a); rewrite !filter_app; cbn [filter is_highlight map];
      now rewrite ?app_nil_r, <- ?app_assoc.
Qed.

Lemma get_annotated_text_highlights text annotations :
  filter is_highlight (get_annotated_text text annotations)
  = map (highlight_of text) (sorted start_pos annotations).
Proof.
  unfold get_annotated_text.
  pose proof (sweep_highlights text (sorted start_pos annotations) [] 0) as H.
  destruct (fold_left _ _ _) as [out c]. cbn [fst filter app] in H.
  destruct (c <? len text); [|exact H].
  rewrite filter_app, H. cbn [filter is_highlight]. apply app_nil_r.
Qed.

(** X1: the highlights of the output, read in order, are the
    annotations one for one: each with its slice of the text and its
    label, in ascending [start_pos] order, annotations of equal
    [start_pos] in the order they have in the input. *)
Theorem get_annotated_text_highlight_order text annotations :
  exists l,
    filter is_highlight (get_annotated_text text annotations)
    = map (highlight_of text) l
    /\ Permutation l annotations
    /\ StronglySorted (key_le start_pos) l
    /\ forall k, filter (fun a => start_pos a =? k) l
                 = filter (fun a => start_pos a =? k) annotations.
Proof.
  exists (sorted start_pos annotations). split; [|split; [|split]].
  - apply get_annotated_text_highlights.
  - apply sorted_perm.
  - apply sorted_ordered.
  - intros k. apply sorted_stable.
Qed.

Lemma sweep_shows text l :
  Forall (span_in_text text) l ->
  forall out c,
    0 <= c <= len text ->
    (forall p, 0 <= p < len text -> shows text out p \/ c <= p) ->
    exists out' c',
      fold_left (sweep_step text) l (out, c) = (out', c')
      /\ 0 <= c' <= len text
      /\ forall p, 0 <= p < len text -> shows text out' p \/ c' <= p.
Proof.
  induction 1 as [|a l Ha _ IH]; intros out c Hc Hinv.
  - now exists out, c.
  - cbn [fold_left]. rewrite sweep_step_shape.
    unfold span_in_text in Ha. apply IH; [lia|].
    intros p Hp.
    assert (Hmono : forall out1 out2 q,
               shows text out1 q -> shows text (out1 ++ out2) q).
    { intros out1 out2 q (f & x & y & Hin & Hf). exists f, x, y.
      split; [apply in_or_app; now left|exact Hf]. }
    destruct (Z.lt_ge_cases p (end_pos a)) as [Hlt|Hge]; [left|now right].
    destruct (Z.le_gt_cases (start_pos a) p) as [Hs|Hs].
    + exists (highlight_of text a), (start_pos a), (end_pos a).
      split; [apply in_or_app; right; now left|].
      cbn [highlight_of fragment_text]. repeat split; lia.
    + destruct (Hinv p Hp) as [Hshown|Hcp].
      * apply Hmono. destruct (c <? start_pos a); [now apply Hmono|exact Hshown].
      * destruct (Z.ltb_spec c (start_pos a)) as [_|Hno]; [|lia].
        apply Hmono.
        exists (Plain (slice text c (start_pos a))), c, (start_pos a).
        split; [apply in_or_app; right; now left|].
        cbn [fragment_text]. repeat split; lia.
Qed.

(** X2: when every span lies inside the text, every position of the
    text is shown: some fragment of the output is a slice [text[a:b]]
    with [a <= p < b], whether the spans overlap or not. *)
Theorem get_annotated_text_shows_all text annotations p :
  Forall (span_in_text text) annotations ->
  0 <= p < len text ->
  shows text (get_annotated_text text annotations) p.
Proof.
  intros Hin Hp.
  assert (Hs : Forall (span_in_text text) (sorted start_pos annotations))
    by (eapply Permutation_Forall; [symmetry; apply sorted_perm|exact Hin]).
  destruct (sweep_shows text _ Hs [] 0) as (out & c & Hfold & Hc & Hinv).
  { pose proof (len_nonneg text). lia. }
  { intros q Hq. right. lia. }
  unfold get_annotated_text. rewrite Hfold.
  destruct (Hinv p Hp) as [(f & a & b & Hf & Hrest)|Hcp].
  - destruct (c <? len text); [|now exists f, a, b].
    exists f, a, b. split; [apply in_or_app; now left|exact Hrest].
  - destruct (Z.ltb_spec c (len text)) as [_|Hno]; [|lia].
    exists (Plain (slice_from text c)), c, (len text).
    split; [apply in_or_app; right; now left|].
    cbn [fragment_text]. split; [|lia].
    rewrite slice_from_inside, slice_inside by lia.
    symmetry. apply firstn_all2. rewrite length_skipn. unfold len. lia.
Qed.

Lemma slice_not_nil {A} (s : list A) a b :
  0 <= a -> a < b -> b <= len s -> slice s a b <> [].
Proof.
  intros Ha Hab Hb E. pose proof (slice_length s a b ltac:(lia) Hb) as Hl.
  rewrite E in Hl. cbn in Hl. lia.
Qed.

Lemma sweep_not_nil text l :
  Forall (span_in_text text) l ->
  forall out c,
    0 <= c <= len text ->
    Forall (fun f => fragment_text f <> []) out ->
    exists out' c',
      fold_left (sweep_step text) l (out, c) = (out', c')
      /\ 0 <= c' <= len text
      /\ Forall (fun f => fragment_text f <> []) out'.
Proof.
  induction 1 as [|a l Ha _ IH]; intros out c Hc Hout.
  - now exists out, c.
  - cbn [fold_left]. rewrite sweep_step_shape.
    unfold span_in_text in Ha. apply IH; [lia|].
    apply Forall_app. split.
    + destruct (Z.ltb_spec c (start_pos a)); [|exact Hout].
      apply Forall_app. split; [exact Hout|].
      constructor; [|constructor]. apply slice_not_nil; lia.
    + constructor; [|constructor]. apply slice_not_nil; lia.
Qed.

(** X3: when every span lies inside the text and is not empty, no
    fragment of the output is empty. *)
Theorem get_annotated_text_no_empty_fragment text annotations :
  Forall (span_in_text text) annotations ->
  Forall (fun f => fragment_text f <> []) (get_annotated_text text annotations).
Proof.
  intros Hin.
  assert (Hs : Forall (span_in_text text) (sorted start_pos annotations))
    by (eapply Permutation_Forall; [symmetry; apply sorted_perm|exact Hin]).
  destruct (sweep_not_nil text _ Hs [] 0) as (out & c & Hfold & Hc & Hout).
  { pose proof (len_nonneg text). lia. }
  { constructor. }
  unfold get_annotated_text. rewrite Hfold.
  destruct (Z.ltb_spec c (len text)); [|exact Hout].
  apply Forall_app. split; [exact Hout|]. constructor; [|constructor].
  cbn [fragment_text]. rewrite slice_from_inside by lia.
  intros E. apply (f_equal (@List.length _)) in E.
  rewrite length_skipn in E. unfold len in *. cbn in E. lia.
Qed.

Lemma insert_comm {A} (key : A -> Z) x y l :
  key x <> key y ->
  insert key x (insert key y l) = insert key y (insert key x l).
Proof.
  intros Hxy. induction l as [|b l IH]; cbn [insert].
  - destruct (Z.leb_spec (key x) (key y)), (Z.leb_spec (key y) (key x));
      trivial; lia.
  - destruct (Z.leb_spec (key x) (key b)), (Z.leb_spec (key y) (key b));
      cbn [insert];
      repeat match goal with
             | |- context [?u <=? ?v] => destruct (Z.leb_spec u v)
             end; trivial; try lia.
    now rewrite IH.
Qed.

Lemma sorted_perm_eq {A} (key : A -> Z) l l' :
  Permutation l l' -> NoDup (map key l) -> sorted key l = sorted key l'.
Proof.
  induction 1 as [|x l l' Hp IH|x y l|l l' l'' Hp1 IH1 Hp2 IH2]; intros Hnd.
  - reflexivity.
  - cbn [sorted fold_right]. fold (sorted key l) (sorted key l').
    rewrite IH; [reflexivity|]. now inversion Hnd.
  - cbn [sorted fold_right]. fold (sorted key l).
    apply insert_comm. cbn [map] in Hnd. inversion Hnd as [|? ? Hy _]; subst.
    intros E. apply Hy. left. now symmetry.
  - rewrite IH1 by exact Hnd. apply IH2.
    eapply Permutation_NoDup; [|exact Hnd]. now apply Permutation_map.
Qed.

(** X4: when no two annotations start at the same position, the output
    does not depend on the order in which they were added. *)
Theorem get_annotated_text_order_independent text annotations annotations' :
  Permutation annotations annotations' ->
  NoDup (map start_pos annotations) ->
  get_annotated_text text annotations = get_annotated_text text annotations'.
Proof.
  intros Hp Hnd. unfold get_annotated_text.
  now rewrite (sorted_perm_eq start_pos annotations annotations').
Qed.

(** X5: after an accepted add-annotation step the preview holds the
    highlight of the new span, and still that of every annotation that
    was there before. *)
Theorem add_annotation_then_render text annotations start_pos end_pos label
    annotations' msg :
  add_annotation text annotations start_pos end_pos label
  = (annotations', success msg) ->
  In (Highlight (slice text start_pos end_pos) label highlight_color)
    (get_annotated_text text annotations')
  /\ forall a, In a annotations ->
               In (highlight_of text a) (get_annotated_text text annotations').
Proof.
  intros Hadd. unfold add_annotation in Hadd.
  destruct ((0 <=? start_pos) && (start_pos <? end_pos) && (end_pos <=? len text));
    [|discriminate].
  injection Hadd as <- _.
  assert (Hall : forall a, In a (annotations
                                   ++ [mkAnnotation start_pos end_pos label
                                         (slice text start_pos end_pos)]) ->
                           In (highlight_of text a)
                             (get_annotated_text text
                                (annotations
                                   ++ [mkAnnotation start_pos end_pos label
                                         (slice text start_pos end_pos)]))).
  { intros a Ha.
    apply (proj1 (filter_In is_highlight _ _)).
    rewrite get_annotated_text_highlights. apply in_map.
    eapply Permutation_in; [symmetry; apply sorted_perm|exact Ha]. }
  split.
  - apply (Hall (mkAnnotation start_pos end_pos label
                   (slice text start_pos end_pos))).
    apply in_or_app. right. now left.
  - intros a Ha. apply Hall. apply in_or_app. now left.
Qed.

(** ** More on the paginator and the page view *)

Lemma range_length_lt n step (k : nat) :
  0 < step -> 0 <= n ->
  (k < range_length 0 n step)%nat <-> Z.of_nat k * step < n.
Proof.
  intros Hs Hn. unfold range_length.
  destruct (Z.ltb_spec 0 step) as [_|Hno]; [|lia].
  destruct (Z.ltb_spec 0 n) as [Hpos|Hz]; [|split; [lia|nia]].
  rewrite Z.sub_0_r.
  pose proof (Z.div_pos (n - 1) step ltac:(lia) Hs) as Hq.
  pose proof (Z.mul_div_le (n - 1) step Hs) as Hle.
  pose proof (Z.mul_succ_div_gt (n - 1) step Hs) as Hgt.
  split; intros H.
  - assert (Z.of_nat k <= (n - 1) / step) by lia. nia.
  - assert (Z.of_nat k <= (n - 1) / step) by (apply Z.div_le_lower_bound; lia).
    lia.
Qed.

Lemma paginate_text_pages (text : list N) P :
  0 < P ->
  paginate_text text P
  = Ok (map (fun k => slice text (Z.of_nat k * P) (Z.of_nat k * P + P))
          (seq 0 (range_length 0 (len text) P))).
Proof.
  intros HP. unfold paginate_text, range.
  destruct (Z.eqb_spec P 0); [lia|]. now rewrite map_map.
Qed.

Lemma page_length (text : list N) P (k : nat) :
  0 < P -> Z.of_nat k * P < len text ->
  len (slice text (Z.of_nat k * P) (Z.of_nat k * P + P))
  = Z.min P (len text - Z.of_nat k * P).
Proof.
  intros HP Hk. rewrite slice_window by lia.
  unfold len in *. rewrite length_firstn, length_skipn. lia.
Qed.

(** X6: for a positive page size no page is empty and no page is longer
    than the page size. *)
Theorem paginate_text_page_sizes text P pages :
  0 < P -> paginate_text text P = Ok pages ->
  Forall (fun page => 1 <= len page <= P) pages.
Proof.
  intros HP. rewrite paginate_text_pages by exact HP. intros [= <-].
  apply Forall_forall. intros page Hin.
  apply in_map_iff in Hin as (k & <- & Hk). apply in_seq in Hk.
  assert (Hlt : Z.of_nat k * P < len text)
    by (apply range_length_lt; [exact HP|apply len_nonneg|lia]).
  rewrite page_length by assumption. lia.
Qed.

(** X7: a text that is not empty and fits one page is paginated into
    exactly one page, the text itself. *)
Theorem paginate_text_single_page text P :
  0 < len text -> len text <= P -> paginate_text text P = Ok [text].
Proof.
  intros Hn HP. rewrite paginate_text_pages by lia.
  assert (E : range_length 0 (len text) P = 1%nat).
  { unfold range_length. destruct (Z.ltb_spec 0 P); [|lia].
    destruct (Z.ltb_spec 0 (len text)); [|lia].
    rewrite Z.sub_0_r, Z.div_small by lia. reflexivity. }
  rewrite E. cbn [seq map]. do 2 f_equal.
  rewrite slice_window by (cbn; lia).
  cbn [Z.of_nat Z.mul Z.to_nat skipn]. apply firstn_all2. unfold len in *. lia.
Qed.


Lemma seq_from len : forall n, seq n len = map (Nat.add n) (seq 0 len).
Proof.
  induction len as [|len IH]; intros n; [reflexivity|].
  cbn [seq map]. rewrite Nat.add_0_r. f_equal.
  rewrite (IH (S n)), (IH 1%nat), map_map. apply map_ext. intros j. lia.
Qed.

Lemma interval_app a b c :
  a <= b -> b <= c -> interval a b ++ interval b c = interval a c.
Proof.
  intros Hab Hbc. unfold interval.
  replace (Z.to_nat (c - a)) with (Z.to_nat (b - a) + Z.to_nat (c - b))%nat by lia.
  rewrite seq_app, map_app. f_equal.
  rewrite (seq_from _ (0 + Z.to_nat (b - a))), map_map.
  apply map_ext. intros j. lia.
Qed.

Lemma interval_empty a b : b <= a -> interval a b = [].
Proof. intros H. unfold interval. now replace (Z.to_nat (b - a)) with 0%nat by lia. Qed.

Lemma interval_cons a b : a < b -> interval a b = a :: interval (a + 1) b.
Proof.
  intros H. rewrite <- (interval_app a (a + 1) b) by lia.
  unfold interval at 1. replace (a + 1 - a) with 1 by lia.
  change (Z.to_nat 1) with 1%nat. cbn [seq map app Z.of_nat].
  now rewrite Z.add_0_r.
Qed.

(** The lines of a piece of the text that starts at offset [a]. *)
Lemma indexed_lines_segment text l :
  forall (a n : nat) (s : Z),
    firstn (List.length l) (skipn a text) = l ->
    Z.of_nat n + s = Z.of_nat a ->
    map (fun ic : Z * N =>
           match ic with
           | (i, char) => Json.int_repr (i + s) ++ str_of ": " ++ [char]
           end)
      (combine (map Z.of_nat (seq n (List.length l))) l)
    = map (offset_line text)
        (interval (Z.of_nat a) (Z.of_nat a + Z.of_nat (List.length l))).
Proof.
  induction l as [|c l IH]; intros a n s Hseg Hs.
  - cbn. now rewrite interval_empty by lia.
  - cbn [List.length] in *. rewrite interval_cons by lia.
    cbn [seq map combine].
    destruct (skipn a text) as [|c' rest] eqn:Hskip; [discriminate|].
    cbn [firstn] in Hseg. injection Hseg as -> Hrest.
    assert (Ha : (a < List.length text)%nat).
    { apply (f_equal (@List.length _)) in Hskip.
      rewrite length_skipn in Hskip. cbn in Hskip. lia. }
    f_equal.
    + unfold offset_line. rewrite Hs. do 2 f_equal.
      rewrite slice_window by (unfold len; lia).
      replace (Z.of_nat a + 1 - Z.of_nat a) with 1 by lia.
      rewrite Nat2Z.id, Hskip. reflexivity.
    + rewrite (IH (S a) (S n) s).
      * f_equal. f_equal; lia.
      * replace (S a) with (1 + a)%nat by lia.
        rewrite <- skipn_skipn, Hskip. exact Hrest.
      * lia.
Qed.

Lemma indexed_lines_slice text a b :
  0 <= a <= len text -> a <= b ->
  indexed_lines (slice text a b) a
  = map (offset_line text) (interval a (Z.min b (len text))).
Proof.
  intros Ha Hab. unfold indexed_lines, enumerate.
  rewrite (indexed_lines_segment text (slice text a b) (Z.to_nat a) 0 a).
  - rewrite Z2Nat.id by lia. do 2 f_equal.
    rewrite slice_window by lia. rewrite length_firstn, length_skipn.
    unfold len in *. lia.
  - rewrite slice_window by lia.
    rewrite length_firstn, length_skipn.
    destruct (Nat.le_ge_cases (Z.to_nat (b - a))
                (List.length text - Z.to_nat a)) as [H|H].
    + now rewrite Nat.min_l.
    + rewrite Nat.min_r by exact H.
      rewrite !firstn_all2; trivial; rewrite length_skipn; lia.
  - lia.
Qed.


Lemma enumerate_map_seq {A} (f : nat -> A) n :
  enumerate (map f (seq 0 n)) = map (fun k => (Z.of_nat k, f k)) (seq 0 n).
Proof.
  unfold enumerate. rewrite length_map, length_seq.
  generalize (seq 0 n). intros l. induction l as [|x l IH]; [reflexivity|].
  cbn [map combine]. now rewrite IH.
Qed.

Lemma concat_intervals P n (k : nat) :
  0 < P -> 0 <= n ->
  List.concat
    (map (fun j => interval (Z.of_nat j * P) (Z.min (Z.of_nat j * P + P) n))
       (seq 0 k))
  = interval 0 (Z.min (Z.of_nat k * P) n).
Proof.
  intros HP Hn. induction k as [|k IH].
  - cbn [seq map List.concat]. now rewrite interval_empty by lia.
  - rewrite seq_S, map_app, concat_app, IH. cbn [Nat.add map List.concat].
    rewrite app_nil_r.
    replace (Z.of_nat (S k) * P) with (Z.of_nat k * P + P) by lia.
    destruct (Z.le_gt_cases (Z.of_nat k * P) n) as [Hle|Hgt].
    + rewrite (Z.min_l (Z.of_nat k * P)) by exact Hle.
      apply interval_app; lia.
    + rewrite (interval_empty (Z.of_nat k * P)) by lia.
      rewrite app_nil_r. f_equal. lia.
Qed.

(** X9: for a positive page size, the lines of all the pages, page after
    page with the start index [main] gives each, are the lines of the
    whole text from offset 0: every character is listed once, with its
    own offset. *)
Theorem page_views_cover_text text P pages :
  0 < P -> paginate_text text P = Ok pages ->
  List.concat
    (map (fun ip => indexed_lines (snd ip) (fst ip * P)) (enumerate pages))
  = indexed_lines text 0.
Proof.
  intros HP. rewrite paginate_text_pages by exact HP. intros [= <-].
  pose proof (len_nonneg text) as HN.
  rewrite enumerate_map_seq, map_map. cbn [fst snd].
  rewrite (map_ext_in _
             (fun k => map (offset_line text)
                         (interval (Z.of_nat k * P)
                            (Z.min (Z.of_nat k * P + P) (len text))))).
  - rewrite <- (map_map (fun k => interval (Z.of_nat k * P)
                                    (Z.min (Z.of_nat k * P + P) (len text)))
                  (map (offset_line text))).
    rewrite <- concat_map, concat_intervals by assumption.
    pose proof (indexed_lines_slice text 0 (len text) ltac:(lia) HN) as E.
    rewrite slice_inside in E by lia. cbn [Z.to_nat skipn] in E.
    rewrite Z.sub_0_r, firstn_len, Z.min_id in E. rewrite E.
    do 2 f_equal.
    pose proof (range_length_up (len text) P HP HN) as Hcnt.
    pose proof (ceil_div_spec (len text) P HP). lia.
  - intros k Hk. apply in_seq in Hk.
    apply indexed_lines_slice; [|lia].
    assert (Z.of_nat k * P < len text)
      by (apply range_length_lt; [exact HP|exact HN|lia]).
    lia.
Qed.

(** ** More on the add-annotation step *)


(** ** More on the export *)

Section ExportFacts.
Import Json JsonFacts.

Ltac printable_chars :=
  repeat (apply Forall_cons; [right; cbv; split; discriminate|]);
  apply Forall_nil.

Lemma printable_hex_digit d : (d < 16)%N -> printable (hex_digit d).
Proof.
  intros H. right. unfold hex_digit. change (ch "0") with 48%N.
  change (ch "a") with 97%N. destruct (N.ltb_spec d 10); lia.
Qed.

Lemma printable_u_escape n : Forall printable (u_escape n).
Proof.
  unfold u_escape, hex4.
  repeat (constructor;
          [first [apply printable_hex_digit; apply N.mod_lt; discriminate
                 | right; cbv; split; discriminate]|]).
  constructor.
Qed.

Lemma printable_escape_char c : Forall printable (escape_char c).
Proof.
  unfold escape_char.
  destruct ((c =? backslash) || (c =? quote) || (c <? 32) || (126 <? c))%N eqn:E.
  - unfold replace.
    repeat match goal with
           | |- context [(c =? ?k)%N] =>
               destruct (c =? k)%N;
               [printable_chars|]
           end.
    destruct (c <? 65536)%N; [apply printable_u_escape|].
    apply Forall_app. split; apply printable_u_escape.
  - rewrite !orb_false_iff in E. destruct E as [[_ E1] E2].
    apply N.ltb_ge in E1, E2. constructor; [right; lia|constructor].
Qed.

Lemma printable_encode_basestring_ascii s :
  Forall printable (encode_basestring_ascii s).
Proof.
  unfold encode_basestring_ascii. constructor; [right; cbv; split; discriminate|].
  apply Forall_app. split; [|printable_chars].
  unfold escape. induction s as [|c s IH]; [constructor|].
  cbn [flat_map]. apply Forall_app. split; [apply printable_escape_char|exact IH].
Qed.

Lemma printable_uint_chars u : Forall printable (uint_chars u).
Proof.
  induction u; cbn [uint_chars]; constructor; trivial;
    right; cbv; split; discriminate.
Qed.

Lemma printable_int_repr z : Forall printable (int_repr z).
Proof.
  unfold int_repr. destruct (Z.to_int z).
  - apply printable_uint_chars.
  - constructor; [right; cbv; split; discriminate|apply printable_uint_chars].
Qed.

Lemma printable_newline_indent indent level :
  Forall printable indent -> Forall printable (newline_indent indent level).
Proof.
  intros H. unfold newline_indent. constructor; [now left|].
  induction level as [|n IH]; [constructor|].
  cbn [repeat List.concat]. apply Forall_app. now split.
Qed.

Lemma printable_join sep items :
  Forall printable sep -> Forall (Forall printable) items ->
  Forall printable (join sep items).
Proof.
  intros Hsep. induction 1 as [|x items Hx Hitems IH]; [constructor|].
  destruct items as [|y items]; [exact Hx|].
  change (join sep (x :: y :: items)) with (x ++ sep ++ join sep (y :: items)).
  repeat (apply Forall_app; split); trivial.
Qed.

Lemma printable_iterencode indent v :
  Forall printable indent ->
  forall level, Forall printable (iterencode indent level v).
Proof.
  intros Hind.
  induction v as [| [|] | z | s | l IH | d IH] using value_ind'; intros level;
    try (printable_chars).
  - apply printable_int_repr.
  - apply printable_encode_basestring_ascii.
  - destruct l as [|x l]; [printable_chars|].
    pose proof (iterencode_list_app indent level x l []) as E.
    rewrite app_nil_r in E. rewrite E.
    constructor; [right; cbv; split; discriminate|].
    repeat (apply Forall_app; split).
    + now apply printable_newline_indent.
    + apply printable_join.
      * constructor; [right; cbv; split; discriminate|].
        now apply printable_newline_indent.
      * apply Forall_map. eapply Forall_impl; [|exact IH]. intros y Hy. apply Hy.
    + now apply printable_newline_indent.
    + printable_chars.
  - destruct d as [|kv d]; [printable_chars|].
    pose proof (iterencode_dict_app indent level kv d []) as E.
    rewrite app_nil_r in E. rewrite E.
    constructor; [right; cbv; split; discriminate|].
    repeat (apply Forall_app; split).
    + now apply printable_newline_indent.
    + apply printable_join.
      * constructor; [right; cbv; split; discriminate|].
        now apply printable_newline_indent.
      * apply Forall_map. eapply Forall_impl; [|exact IH].
        intros [k y] Hy. cbn [snd] in Hy. unfold encode_item.
        repeat (apply Forall_app; split).
        -- apply printable_encode_basestring_ascii.
        -- printable_chars.
        -- apply Hy.
    + now apply printable_newline_indent.
    + printable_chars.
Qed.

Lemma annotation_value_inj a b :
  annotation_value a = annotation_value b -> a = b.
Proof.
  destruct a, b. unfold annotation_value. cbn [start_pos end_pos label text_fragment].
  intros [= -> -> -> ->]. reflexivity.
Qed.

Lemma map_annotation_value_inj l :
  forall m, map annotation_value l = map annotation_value m -> l = m.
Proof.
  induction l as [|a l IH]; intros [|b m] H; try discriminate; trivial.
  cbn [map] in H.
  pose proof (f_equal (hd (annotation_value a)) H) as Ha.
  pose proof (f_equal (@tl _) H) as Hl. cbn [hd tl] in Ha, Hl.
  f_equal; [now apply annotation_value_inj|now apply IH].
Qed.

Lemma wf_plain_records text annotations :
  is_str text -> pair_free text -> Forall plain_record annotations ->
  wf_value (annotated_data text annotations).
Proof.
  intros Ht Hp Ha. apply wf_annotated_data; trivial.
  eapply Forall_impl; [|exact Ha]. unfold plain_record. intros a H. tauto.
Qed.

End ExportFacts.

(** X13: whatever the text and the annotations, the exported string
    holds only printable ASCII characters and newlines. *)
Theorem save_annotations_printable text annotations :
  Forall printable (save_annotations text annotations).
Proof.
  unfold save_annotations, Json.dumps. apply printable_iterencode.
  apply Forall_forall. intros c Hc. apply repeat_spec in Hc as ->.
  right. cbv. split; discriminate.
Qed.

(** X14: two sessions with the same export have the same text and the
    same annotations, as long as their strings hold no high surrogate
    directly followed by a low one. *)
Theorem save_annotations_injective text1 annotations1 text2 annotations2 :
  Json.is_str text1 -> Json.pair_free text1 -> Forall plain_record annotations1 ->
  Json.is_str text2 -> Json.pair_free text2 -> Forall plain_record annotations2 ->
  save_annotations text1 annotations1 = save_annotations text2 annotations2 ->
  text1 = text2 /\ annotations1 = annotations2.
Proof.
  intros Ht Hp Ha Ht2 Hp2 Ha2 E. unfold save_annotations in E.
  apply (f_equal Json.loads) in E.
  rewrite !JsonFacts.loads_dumps in E by now apply wf_plain_records.
  unfold annotated_data in E. injection E as -> E.
  split; [reflexivity|]. now apply map_annotation_value_inj.
Qed.

(** X15: the export checks nothing and recomputes nothing: for any list
    of records, also with positions outside the text or a
    [text_fragment] that is not the slice of the text, parsing the
    export gives back each record with the fields it holds. *)
Theorem save_annotations_keeps_records text annotations :
  Json.is_str text -> Json.pair_free text -> Forall plain_record annotations ->
  Json.loads (save_annotations text annotations)
  = Some (Json.VDict
            [(str_of "text", Json.VStr text);
             (str_of "annotations",
              Json.VList
                (map (fun a =>
                        Json.VDict
                          [(str_of "start_pos", Json.VInt (start_pos a));
                           (str_of "end_pos", Json.VInt (end_pos a));
                           (str_of "label", Json.VStr (label a));
                           (str_of "text_fragment",
                            Json.VStr (text_fragment a))])
                   annotations))]).
Proof.
  intros Ht Hp Ha. unfold save_annotations.
  now rewrite JsonFacts.loads_dumps by now apply wf_plain_records.
Qed.

(** ** Across the functions *)


(** ** The further properties on concrete inputs *)

Lemma sample_spans : Forall (span_in_text sample_text) sample_annotations.
Proof.
  repeat (constructor; [vm_compute; repeat split; discriminate|]). constructor.
Qed.

Lemma sample_plain_records : Forall plain_record sample_annotations.
Proof.
  repeat (constructor;
          [unfold plain_record; cbn [label text_fragment start_pos end_pos];
           repeat split;
           try (repeat (constructor; [reflexivity|]); constructor);
           try (vm_compute; repeat split; congruence)|]).
  constructor.
Qed.

Lemma get_annotated_text_shows_all_witness :
  shows sample_text (get_annotated_text sample_text sample_annotations) 7.
Proof.
  apply (get_annotated_text_shows_all sample_text sample_annotations 7).
  - exact sample_spans.
  - vm_compute. repeat split; congruence.
Defined.

Lemma get_annotated_text_no_empty_fragment_witness :
  Forall (fun f => fragment_text f <> [])
    (get_annotated_text sample_text sample_annotations).
Proof.
  apply (get_annotated_text_no_empty_fragment sample_text sample_annotations).
  exact sample_spans.
Defined.

Lemma get_annotated_text_order_independent_witness :
  get_annotated_text sample_text sample_annotations
  = get_annotated_text sample_text (rev sample_annotations).
Proof.
  apply (get_annotated_text_order_independent sample_text sample_annotations
           (rev sample_annotations)).
  - apply Permutation_rev.
  - vm_compute. repeat (constructor; [cbn [In]; intuition discriminate|]).
    constructor.
Defined.

Lemma add_annotation_then_render_witness :
  In (Highlight (slice sample_text 14 19) (str_of "LOCATION") highlight_color)
    (get_annotated_text sample_text sample_annotations)
  /\ forall a,
      In a [mkAnnotation 0 5 (str_of "PERSON") (str_of "Alice")] ->
      In (highlight_of sample_text a)
        (get_annotated_text sample_text sample_annotations).
Proof.
  apply (add_annotation_then_render sample_text
           [mkAnnotation 0 5 (str_of "PERSON") (str_of "Alice")]
           14 19 (str_of "LOCATION") sample_annotations "Annotation Added!").
  reflexivity.
Defined.

Lemma paginate_text_page_sizes_witness :
  exists pages,
    paginate_text sample_text 7 = Ok pages
    /\ Forall (fun page => 1 <= len page <= 7) pages.
Proof.
  eexists. split; [reflexivity|].
  apply (paginate_text_page_sizes sample_text 7); [lia|reflexivity].
Defined.

Lemma paginate_text_single_page_witness :
  paginate_text sample_text 25 = Ok [sample_text].
Proof.
  apply (paginate_text_single_page sample_text 25); vm_compute; congruence.
Defined.


Lemma page_views_cover_text_witness :
  exists pages,
    paginate_text sample_text 7 = Ok pages
    /\ List.concat
         (map (fun ip => indexed_lines (snd ip) (fst ip * 7)) (enumerate pages))
       = indexed_lines sample_text 0.
Proof.
  eexists. split; [reflexivity|].
  apply (page_views_cover_text sample_text 7); [lia|reflexivity].
Defined.

Lemma save_annotations_injective_witness :
  sample_text = sample_text /\ sample_annotations = sample_annotations.
Proof.
  apply (save_annotations_injective sample_text sample_annotations
           sample_text sample_annotations);
    first [exact sample_is_str | exact sample_pair_free
          | exact sample_plain_records | reflexivity].
Defined.

Lemma save_annotations_keeps_records_witness :
  Json.loads
    (save_annotations sample_text
       [mkAnnotation 3 2 (str_of "PERSON") (str_of "stale")])
  = Some (Json.VDict
            [(str_of "text", Json.VStr sample_text);
             (str_of "annotations",
              Json.VList
                [Json.VDict
                   [(str_of "start_pos", Json.VInt 3);
                    (str_of "end_pos", Json.VInt 2);
                    (str_of "label", Json.VStr (str_of "PERSON"));
                    (str_of "text_fragment", Json.VStr (str_of "stale"))]])]).
Proof.
  apply (save_annotations_keeps_records sample_text
           [mkAnnotation 3 2 (str_of "PERSON") (str_of "stale")]).
  - exact sample_is_str.
  - exact sample_pair_free.
  - constructor; [|constructor].
    unfold plain_record; cbn [label text_fragment start_pos end_pos].
    repeat split;
      try (repeat (constructor; [reflexivity|]); constructor);
      try (vm_compute; repeat split; congruence).
Defined.

